(** * Invoice e-mail job pipeline and invoice generation engine

    A shallow embedding of [InvoiceEmailHandler.handle] (the batch job that
    renders an invoice PDF and e-mails it, reporting step results to the job
    service) and of the invoice generation / finalization actions exercised by
    [billingInvoiceGeneration.test.ts]. *)

From stdpp Require Import base option strings list gmap pretty.
From Stdlib Require Import ZArith QArith Qround Qminmax Lia.

Local Close Scope Q_scope.
Local Open Scope string_scope.
Local Open Scope list_scope.

(** ** JavaScript values that the handler inspects *)

Module Js.

(** A thrown value: either an [Error] object carrying a message, or any
    other value ([throw 'text']).  *)
Inductive exn : Type :=
| JsError (message : string)
| Thrown (payload : string).

(** [error instanceof Error ? error.message : 'Unknown error'] *)
Definition errorMessage (e : exn) : string :=
  match e with
  | JsError m => m
  | Thrown _ => "Unknown error"
  end.

(** Truthiness of a string: the empty string is falsy. *)
Definition truthy_string (s : string) : bool :=
  match s with
  | EmptyString => false
  | String _ _ => true
  end.

(** Truthiness of an optional string field ([undefined], [null] and [''] are
    all falsy). *)
Definition truthy (o : option string) : bool :=
  match o with
  | Some s => truthy_string s
  | None => false
  end.

(** [a || b] on strings where [a] may be missing. *)
Definition or_else (o : option string) (d : string) : string :=
  match o with
  | Some s => if truthy_string s then s else d
  | None => d
  end.

(** The string held by an optional field that was just tested truthy. *)
Definition get (o : option string) : string :=
  match o with
  | Some s => s
  | None => ""
  end.

(** [haystack.includes(needle)] *)
Fixpoint includes (haystack needle : string) : bool :=
  String.prefix needle haystack
  || match haystack with
     | EmptyString => false
     | String _ rest => includes rest needle
     end.

End Js.

Export Js.

(** ** The job pipeline: [InvoiceEmailHandler] *)

Module InvoiceEmailHandler.

(** *** Data exchanged with the collaborators *)

Inductive JobStatus : Type := Processing | Completed | Failed.

Inductive StepStatus : Type := started | completed.

Record JobStepResult : Type := mkStepResult {
  step : string;
  status : StepStatus;
  invoiceId : string;
  file_id : option string;
  recipientEmail : option string;
  details : string
}.

(** The second and third arguments of [jobService.updateJobStatus]. *)
Record JobUpdate : Type := mkUpdate {
  upd_jobServiceId : string;
  upd_status : JobStatus;
  upd_tenantId : string;
  upd_pgBossJobId : string;
  upd_stepResult : option JobStepResult;
  upd_error : option string;
  upd_details : option string
}.

Record JobStep : Type := mkStep {
  stepName : string;
  type : string;
  step_invoiceId : option string;
  step_tenantId : string
}.

Record InvoiceEmailJobData : Type := mkJobData {
  jobServiceId : string;
  tenantId : string;
  invoiceIds : list string;
  steps : list JobStep
}.

Record Contact : Type := mkContact {
  contact_name : string;
  contact_address : string
}.

(** The fields of the rendering view model that the handler reads. *)
Record InvoiceViewModel : Type := mkInvoice {
  invoice_number : string;
  company_id : string;
  contact : option Contact
}.

Record ICompany : Type := mkCompany {
  company_name : string;
  email : option string;
  billing_email : option string;
  billing_contact_id : option string;
  address : option string
}.

Record IContact : Type := mkIContact {
  contact_email : option string;
  full_name : string
}.

Record EmailCompany : Type := mkEmailCompany {
  ec_name : string;
  ec_logo : string;
  ec_address : string
}.

(** First argument of [emailService.sendInvoiceEmail]. *)
Record EmailInvoice : Type := mkEmailInvoice {
  ei_invoice : InvoiceViewModel;
  ei_recipientEmail : string;
  ei_tenantId : string;
  ei_company : EmailCompany
}.

(** *** The world the handler runs in *)

Inductive outcome (A : Type) : Type :=
| Returned (a : A)
| Threw (e : exn).
Arguments Returned {A} a.
Arguments Threw {A} e.

(** The job history kept by the job service (oldest update first), the
    files under [/tmp] with their contents, the paths of the calls of
    [fs.writeFile] that resolved so far (a trace that the handler never
    reads), and the number of collaborator calls made so far. *)
Record World : Type := mkWorld {
  job_log : list JobUpdate;
  fs : gmap string string;
  fs_written : list string;
  tick : nat
}.

(** How a call of [fs.writeFile] ends: it resolves, or it rejects, and
    then either the file system is as before ([None]) or a file with
    part of the buffer is left at the path. *)
Inductive WriteOutcome : Type :=
| WriteResolved
| WriteRejected (e : exn) (left_behind : option string).

(** The external collaborators.  Every call is answered as a function of
    the moment it is made ([tick]) and of its arguments, so that two calls
    with the same arguments may be answered differently. *)
Record Collaborators : Type := mkCollaborators {
  getInvoiceForRendering : nat -> string -> outcome (option InvoiceViewModel);
  getCompanyById : nat -> string -> outcome (option ICompany);
  ContactModel_get : nat -> string -> outcome (option IContact);
  generateAndStore : nat -> string -> string -> Z -> outcome string;
  downloadFile : nat -> string -> outcome string;
  sendInvoiceEmail : nat -> EmailInvoice -> string -> outcome bool;
  Date_now : nat -> Z;
  fs_writeFile : nat -> string -> string -> WriteOutcome
}.

(** *** A state and exception monad for [async] code *)

Definition M (A : Type) : Type := World -> outcome A * World.

Definition ret {A} (a : A) : M A := fun w => (Returned a, w).

Definition throw {A} (e : exn) : M A := fun w => (Threw e, w).

Definition bind {A B} (m : M A) (k : A -> M B) : M B :=
  fun w =>
    match m w with
    | (Returned a, w') => k a w'
    | (Threw e, w') => (Threw e, w')
    end.

(** [try { body } catch (error) { handler }] *)
Definition try_catch {A} (body : M A) (handler : exn -> M A) : M A :=
  fun w =>
    match body w with
    | (Returned a, w') => (Returned a, w')
    | (Threw e, w') => handler e w'
    end.

(** [try { body } finally { cleanup }]: the cleanup always runs, and an
    exception raised by the cleanup replaces the outcome of the body. *)
Definition try_finally {A} (body : M A) (cleanup : M unit) : M A :=
  fun w =>
    match body w with
    | (r, w') =>
        match cleanup w' with
        | (Returned _, w'') => (r, w'')
        | (Threw e, w'') => (Threw e, w'')
        end
    end.

(** [await collaborator(...)]: the answer is read at the current tick. *)
Definition await {A} (f : nat -> outcome A) : M A :=
  fun w =>
    (f (tick w),
     {| job_log := job_log w; fs := fs w; fs_written := fs_written w;
        tick := S (tick w) |}).

Definition now (f : nat -> Z) : M Z :=
  fun w =>
    (Returned (f (tick w)),
     {| job_log := job_log w; fs := fs w; fs_written := fs_written w;
        tick := S (tick w) |}).

(** [jobService.updateJobStatus]: appends to the job history.  The job
    service is the channel through which the handler is observed; its call
    is taken to succeed. *)
Definition updateJobStatus (u : JobUpdate) : M unit :=
  fun w =>
    (Returned tt,
     {| job_log := job_log w ++ [u]; fs := fs w;
        fs_written := fs_written w; tick := tick w |}).

(** [await fs.writeFile(path, buffer)], answered by [answer] at the
    current tick.  When the call resolves, the file exists with the given
    contents; when it rejects, the exception is raised, and a file is left
    at the path if the rejected call had created one. *)
Definition writeFile (answer : nat -> string -> string -> WriteOutcome)
    (path buffer : string) : M unit :=
  fun w =>
    match answer (tick w) path buffer with
    | WriteResolved =>
        (Returned tt,
         {| job_log := job_log w; fs := <[path := buffer]> (fs w);
            fs_written := fs_written w ++ [path]; tick := S (tick w) |})
    | WriteRejected e None =>
        (Threw e,
         {| job_log := job_log w; fs := fs w;
            fs_written := fs_written w; tick := S (tick w) |})
    | WriteRejected e (Some part) =>
        (Threw e,
         {| job_log := job_log w; fs := <[path := part]> (fs w);
            fs_written := fs_written w; tick := S (tick w) |})
    end.

(** [fs.unlink(path)]: the removal of a file that exists is taken to
    succeed; the call rejects with ENOENT when the file is absent. *)
Definition unlink (path : string) : M unit :=
  fun w =>
    match fs w !! path with
    | Some _ =>
        (Returned tt,
         {| job_log := job_log w; fs := delete path (fs w);
            fs_written := fs_written w; tick := tick w |})
    | None =>
        (Threw (JsError ("ENOENT: no such file or directory, unlink '" +:+ path +:+ "'")), w)
    end.

Notation "x <- m ;; k" := (bind m (fun x => k))
  (at level 100, m at next level, right associativity).
Notation "m ;;; k" := (bind m (fun _ => k))
  (at level 100, right associativity).

(** [step.type] where [step] came from an array access that may have been
    out of range. *)
Definition step_type (s : option JobStep) : M string :=
  match s with
  | Some st => ret (type st)
  | None => throw (JsError "Cannot read properties of undefined (reading 'type')")
  end.

Section Handler.

Variable env : Collaborators.
Variable pgBossJobId : string.
Variable data : InvoiceEmailJobData.

Definition stepUpdate (r : JobStepResult) : JobUpdate :=
  {| upd_jobServiceId := jobServiceId data;
     upd_status := Processing;
     upd_tenantId := tenantId data;
     upd_pgBossJobId := pgBossJobId;
     upd_stepResult := Some r;
     upd_error := None;
     upd_details := None |}.

Definition failedUpdate (msg : string) : JobUpdate :=
  {| upd_jobServiceId := jobServiceId data;
     upd_status := Failed;
     upd_tenantId := tenantId data;
     upd_pgBossJobId := pgBossJobId;
     upd_stepResult := None;
     upd_error := Some msg;
     upd_details := None |}.

Definition completedUpdate (msg : string) : JobUpdate :=
  {| upd_jobServiceId := jobServiceId data;
     upd_status := Completed;
     upd_tenantId := tenantId data;
     upd_pgBossJobId := pgBossJobId;
     upd_stepResult := None;
     upd_error := None;
     upd_details := Some msg |}.

(** Lines 303-311: fetch the invoice and its company. *)
Definition fetchDetails (id : string) : M (InvoiceViewModel * ICompany) :=
  oinv <- await (fun t => getInvoiceForRendering env t id) ;;
  match oinv with
  | None => throw (JsError ("Failed to get details for Invoice ID " +:+ id))
  | Some invoice =>
      if negb (truthy_string (invoice_number invoice))
      then throw (JsError ("Failed to get details for Invoice ID " +:+ id))
      else
        ocom <- await (fun t => getCompanyById env t (company_id invoice)) ;;
        match ocom with
        | None =>
            throw (JsError ("Company not found for Invoice #" +:+ invoice_number invoice))
        | Some company => ret (invoice, company)
        end
  end.

(** Lines 313-346, step 1: generate the PDF. *)
Definition generatePdf (id : string) (pdfStep : option JobStep)
    (invoice : InvoiceViewModel) (company : ICompany) : M string :=
  ty <- step_type pdfStep ;;
  updateJobStatus (stepUpdate
    {| step := ty; status := started; invoiceId := id;
       file_id := None; recipientEmail := None;
       details := "Generating PDF for Invoice #" +:+ invoice_number invoice
                  +:+ " (" +:+ company_name company +:+ ")" |}) ;;;
  fid <- await (fun t => generateAndStore env t id (invoice_number invoice) 1%Z) ;;
  ty' <- step_type pdfStep ;;
  updateJobStatus (stepUpdate
    {| step := ty'; status := completed; invoiceId := id;
       file_id := Some fid; recipientEmail := None;
       details := "Generated PDF for Invoice #" +:+ invoice_number invoice
                  +:+ " (" +:+ company_name company +:+ ")" |}) ;;;
  ret fid.

(** Lines 349-365: determine the recipient. *)
Definition resolveRecipient (invoice : InvoiceViewModel) (company : ICompany)
    : M (string * string) :=
  r <- (if truthy (billing_contact_id company) then
          ocontact <- await (fun t =>
            ContactModel_get env t (get (billing_contact_id company))) ;;
          match ocontact with
          | Some c => ret (contact_email c, full_name c)
          | None => ret (email company, company_name company)
          end
        else if truthy (billing_email company) then
          ret (billing_email company, company_name company)
        else ret (email company, company_name company)) ;;
  let '(recipientEmail, recipientName) := r in
  if negb (truthy recipientEmail)
  then throw (JsError ("No valid email address found for " +:+ company_name company
                       +:+ " (Invoice #" +:+ invoice_number invoice +:+ ")"))
  else ret (get recipientEmail, recipientName).

(** Lines 367-428, step 2: send the e-mail with the PDF attached.  The
    file is written (line 389) before the [try] of lines 391-428 is
    entered, so that only an exit from the send is followed by the
    [unlink] of the [finally]. *)
Definition sendEmail (id : string) (emailStep : option JobStep)
    (invoice : InvoiceViewModel) (company : ICompany) (fid : string)
    (recipientEmail recipientName : string) : M unit :=
  ty <- step_type emailStep ;;
  updateJobStatus (stepUpdate
    {| step := ty; status := started; invoiceId := id;
       file_id := None; recipientEmail := None;
       details := "Sending Invoice #" +:+ invoice_number invoice +:+ " to "
                  +:+ recipientName +:+ " (" +:+ recipientEmail +:+ ") at "
                  +:+ company_name company |}) ;;;
  let invoice' :=
    {| invoice_number := invoice_number invoice;
       company_id := company_id invoice;
       contact := Some {| contact_name := recipientName;
                          contact_address := or_else (address company) "" |} |} in
  buffer <- await (fun t => downloadFile env t fid) ;;
  stamp <- now (Date_now env) ;;
  let tempPath := "/tmp/invoice_" +:+ invoice_number invoice +:+ "_"
                  +:+ pretty stamp +:+ ".pdf" in
  writeFile (fs_writeFile env) tempPath buffer ;;;
  try_finally
    (success <- await (fun t =>
       sendInvoiceEmail env t
         {| ei_invoice := invoice';
            ei_recipientEmail := recipientEmail;
            ei_tenantId := tenantId data;
            ei_company := {| ec_name := company_name company;
                             ec_logo := "";
                             ec_address := or_else (address company) "" |} |}
         tempPath) ;;
     if negb success then throw (JsError "Failed to send invoice email")
     else
       ty' <- step_type emailStep ;;
       updateJobStatus (stepUpdate
         {| step := ty'; status := completed; invoiceId := id;
            file_id := None; recipientEmail := Some recipientEmail;
            details := "Successfully sent Invoice #" +:+ invoice_number invoice
                       +:+ " to " +:+ recipientName +:+ " at "
                       +:+ company_name company |}))
    (unlink tempPath).

(** Lines 430-446: the handler of the per-invoice [catch]. *)
Definition reportFailure (id : string) (error : exn) : M unit :=
  oinv <- await (fun t => getInvoiceForRendering env t id) ;;
  ocom <- match oinv with
          | Some invoice => await (fun t => getCompanyById env t (company_id invoice))
          | None => ret None
          end ;;
  let invoiceNumber :=
    or_else (option_map invoice_number oinv) id in
  let companyName :=
    or_else (option_map company_name ocom) "Unknown Company" in
  let contextualError :=
    "Failed to process Invoice #" +:+ invoiceNumber +:+ " for " +:+ companyName
    +:+ ": " +:+ errorMessage error in
  updateJobStatus (failedUpdate contextualError) ;;;
  throw error.

(** Lines 302-428: the [try] block of the loop body for index [i]. *)
Definition processBody (i : nat) (id : string) : M unit :=
  let pdfStep := steps data !! (i * 2)%nat in
  let emailStep := steps data !! (i * 2 + 1)%nat in
  d <- fetchDetails id ;;
  let '(invoice, company) := d in
  fid <- generatePdf id pdfStep invoice company ;;
  r <- resolveRecipient invoice company ;;
  let '(recipientEmail, recipientName) := r in
  sendEmail id emailStep invoice company fid recipientEmail recipientName.

(** Lines 297-446: the body of the [for] loop for index [i]. *)
Definition processInvoice (i : nat) (id : string) : M unit :=
  try_catch (processBody i id) (reportFailure id).

(** Lines 296-447: [for (let i = 0; i < invoiceIds.length; i++)], started
    at index [i] with [ids] the identifiers still to be processed. *)
Fixpoint forEachInvoice (i : nat) (ids : list string) : M unit :=
  match ids with
  | [] => ret tt
  | id :: rest => processInvoice i id ;;; forEachInvoice (S i) rest
  end.

(** Lines 294-464: the outer [try] / [catch]. *)
Definition runBatch : M unit :=
  try_catch
    (forEachInvoice 0 (invoiceIds data) ;;;
     updateJobStatus (completedUpdate
       ("Successfully processed " +:+ pretty (length (invoiceIds data))
        +:+ " invoice(s)")))
    (fun error =>
       updateJobStatus (failedUpdate (errorMessage error)) ;;;
       throw error).

(** Lines 275-465: [InvoiceEmailHandler.handle].  The construction of the
    storage, job, e-mail and PDF services (lines 286-292) is taken to
    succeed. *)
Definition handle : M unit :=
  if negb (truthy_string (jobServiceId data))
  then throw (JsError "jobServiceId is required in job data")
  else if negb (truthy_string (tenantId data))
  then throw (JsError "Tenant ID is required")
  else match invoiceIds data with
       | [] => throw (JsError "No invoice IDs provided")
       | _ :: _ => runBatch
       end.

End Handler.

End InvoiceEmailHandler.

(** ** Vocabulary for stating the properties of the handler *)

Module HandlerSpec.
Import InvoiceEmailHandler.

(** The step results carried by a run of job updates, in order. *)
Definition stepResultsOf (d : list JobUpdate) : list JobStepResult :=
  omap upd_stepResult d.

(** The invoice each step result was emitted for. *)
Definition owners (d : list JobUpdate) : list string :=
  invoiceId <$> stepResultsOf d.

(** A [Processing] update carrying a step result for invoice [id]. *)
Definition stepOf (id : string) (u : JobUpdate) : Prop :=
  upd_status u = Processing /\ invoiceId <$> upd_stepResult u = Some id.

Definition statuses (d : list JobUpdate) : list StepStatus :=
  status <$> stepResultsOf d.

(** What one fully processed invoice adds to the job history. *)
Definition invoiceReport (id : string) (d : list JobUpdate) : Prop :=
  Forall (stepOf id) d /\ statuses d = [started; completed; started; completed].

(** What a fully processed batch adds: one report per invoice, in order. *)
Inductive batchReport : list string -> list JobUpdate -> Prop :=
| batchReport_nil : batchReport [] []
| batchReport_cons id ids d1 d :
    invoiceReport id d1 -> batchReport ids d ->
    batchReport (id :: ids) (d1 ++ d).

(** From [w] to [w']: the job history grew by [d] and the writes of the
    paths [ps] resolved; apart from the paths [ls], at which a rejected
    write may have left a file, none of [ps] exists any more and no
    other file changed. *)
Record evolves (w w' : World) (d : list JobUpdate) (ps ls : list string) : Prop := {
  ev_log : job_log w' = job_log w ++ d;
  ev_written : fs_written w' = fs_written w ++ ps;
  ev_removed : forall p, p ∈ ps -> p ∉ ls -> fs w' !! p = None;
  ev_frame : forall p, p ∉ ps -> p ∉ ls -> fs w' !! p = fs w !! p
}.

(** The paths [ls] at which a file may have been left: none, or the one
    path of a call of [fs.writeFile] that rejected having created the
    file. *)
Definition leftover (env : Collaborators) (ls : list string) : Prop :=
  ls = [] \/
  exists t p buffer e part,
    ls = [p] /\ fs_writeFile env t p buffer = WriteRejected e (Some part).

(** The message built by the per-invoice [catch] from what its own
    look-ups of the invoice and of the company returned. *)
Definition contextualError (id : string) (oinv : option InvoiceViewModel)
    (ocom : option ICompany) (e : exn) : string :=
  "Failed to process Invoice #" +:+ or_else (invoice_number <$> oinv) id
  +:+ " for " +:+ or_else (company_name <$> ocom) "Unknown Company"
  +:+ ": " +:+ errorMessage e.

(** The company with another [billing_email]. *)
Definition with_billing_email (b : option string) (c : ICompany) : ICompany :=
  {| company_name := company_name c;
     email := email c;
     billing_email := b;
     billing_contact_id := billing_contact_id c;
     address := address c |}.

(** The world after [n] collaborator calls that changed nothing else. *)
Definition ticked (n : nat) (w : World) : World :=
  {| job_log := job_log w; fs := fs w; fs_written := fs_written w;
     tick := n + tick w |}.
End HandlerSpec.

(** ** Concrete batches used to exercise the handler *)

Module HandlerExamples.
Import InvoiceEmailHandler.

Definition inv1 : InvoiceViewModel :=
  {| invoice_number := "INV-001"; company_id := "co1"; contact := None |}.

Definition inv2 : InvoiceViewModel :=
  {| invoice_number := "INV-002"; company_id := "co1"; contact := None |}.

(** A company with a billing contact id, a billing e-mail and a general
    e-mail. *)
Definition acme : ICompany :=
  {| company_name := "Acme";
     email := Some "info@acme.test";
     billing_email := Some "billing@acme.test";
     billing_contact_id := Some "ct1";
     address := None |}.

(** The same company without a general e-mail address. *)
Definition acme_billing_only : ICompany :=
  {| company_name := "Acme";
     email := None;
     billing_email := Some "billing@acme.test";
     billing_contact_id := Some "ct1";
     address := None |}.

Definition lookupInvoice (id : string) : outcome (option InvoiceViewModel) :=
  if String.eqb id "i1" then Returned (Some inv1)
  else if String.eqb id "i2" then Returned (Some inv2)
  else Returned None.

(** Every collaborator answers; the billing contact [ct1] no longer
    exists. *)
Definition env_ok : Collaborators :=
  {| getInvoiceForRendering := fun _ => lookupInvoice;
     getCompanyById := fun _ _ => Returned (Some acme);
     ContactModel_get := fun _ _ => Returned None;
     generateAndStore := fun _ id _ _ => Returned ("file-" +:+ id);
     downloadFile := fun _ _ => Returned "%PDF";
     sendInvoiceEmail := fun _ _ _ => Returned true;
     Date_now := fun t => (1700000000000 + Z.of_nat t)%Z;
     fs_writeFile := fun _ _ _ => WriteResolved |}.

(** The mail transport reports an unsuccessful send. *)
Definition env_send_false : Collaborators :=
  {| getInvoiceForRendering := fun _ => lookupInvoice;
     getCompanyById := fun _ _ => Returned (Some acme);
     ContactModel_get := fun _ _ => Returned None;
     generateAndStore := fun _ id _ _ => Returned ("file-" +:+ id);
     downloadFile := fun _ _ => Returned "%PDF";
     sendInvoiceEmail := fun _ _ _ => Returned false;
     Date_now := fun t => (1700000000000 + Z.of_nat t)%Z;
     fs_writeFile := fun _ _ _ => WriteResolved |}.

(** The company lookup rejects on every call. *)
Definition env_company_down : Collaborators :=
  {| getInvoiceForRendering := fun _ => lookupInvoice;
     getCompanyById := fun _ _ => Threw (JsError "connection refused");
     ContactModel_get := fun _ _ => Returned None;
     generateAndStore := fun _ id _ _ => Returned ("file-" +:+ id);
     downloadFile := fun _ _ => Returned "%PDF";
     sendInvoiceEmail := fun _ _ _ => Returned true;
     Date_now := fun t => (1700000000000 + Z.of_nat t)%Z;
     fs_writeFile := fun _ _ _ => WriteResolved |}.

(** The company has no general e-mail address and its billing contact no
    longer exists. *)
Definition env_billing_only : Collaborators :=
  {| getInvoiceForRendering := fun _ => lookupInvoice;
     getCompanyById := fun _ _ => Returned (Some acme_billing_only);
     ContactModel_get := fun _ _ => Returned None;
     generateAndStore := fun _ id _ _ => Returned ("file-" +:+ id);
     downloadFile := fun _ _ => Returned "%PDF";
     sendInvoiceEmail := fun _ _ _ => Returned true;
     Date_now := fun t => (1700000000000 + Z.of_nat t)%Z;
     fs_writeFile := fun _ _ _ => WriteResolved |}.

(** The device fills up while the PDF is written: the write rejects and
    leaves a truncated file. *)
Definition env_disk_full : Collaborators :=
  {| getInvoiceForRendering := fun _ => lookupInvoice;
     getCompanyById := fun _ _ => Returned (Some acme);
     ContactModel_get := fun _ _ => Returned None;
     generateAndStore := fun _ id _ _ => Returned ("file-" +:+ id);
     downloadFile := fun _ _ => Returned "%PDF";
     sendInvoiceEmail := fun _ _ _ => Returned true;
     Date_now := fun t => (1700000000000 + Z.of_nat t)%Z;
     fs_writeFile := fun _ _ _ =>
       WriteRejected (JsError "ENOSPC: no space left on device, write")
                     (Some "%P") |}.

(** An invoice whose number holds a path separator. *)
Definition inv_slash : InvoiceViewModel :=
  {| invoice_number := "A/B"; company_id := "co1"; contact := None |}.

(** [/tmp] has no sub-directory: a file whose name under [/tmp/] holds a
    further [/] cannot be opened, and nothing is created. *)
Definition env_flat_tmp : Collaborators :=
  {| getInvoiceForRendering := fun _ _ => Returned (Some inv_slash);
     getCompanyById := fun _ _ => Returned (Some acme);
     ContactModel_get := fun _ _ => Returned None;
     generateAndStore := fun _ id _ _ => Returned ("file-" +:+ id);
     downloadFile := fun _ _ => Returned "%PDF";
     sendInvoiceEmail := fun _ _ _ => Returned true;
     Date_now := fun t => (1700000000000 + Z.of_nat t)%Z;
     fs_writeFile := fun _ path _ =>
       if includes (String.substring 5 (String.length path - 5) path) "/"
       then WriteRejected
              (JsError ("ENOENT: no such file or directory, open '"
                        +:+ path +:+ "'")) None
       else WriteResolved |}.

Definition stepsFor (ids : list string) : list JobStep :=
  ids ≫= fun id =>
    [ {| stepName := "Generate PDF"; type := "pdf_generation";
         step_invoiceId := Some id; step_tenantId := "tenant-1" |};
      {| stepName := "Send email"; type := "email_sending";
         step_invoiceId := Some id; step_tenantId := "tenant-1" |} ].

Definition batch (ids : list string) : InvoiceEmailJobData :=
  {| jobServiceId := "job-1"; tenantId := "tenant-1";
     invoiceIds := ids; steps := stepsFor ids |}.

Definition w0 : World :=
  {| job_log := []; fs := ∅; fs_written := []; tick := 0 |}.

End HandlerExamples.

(** ** The invoice generation engine: [generateInvoice], [finalizeInvoice] *)

Module Billing.

Inductive PlanType : Type := Fixed | Hourly | Usage | Bucket.

Inductive InvoiceStatus : Type := draft | sent | failed.

Inductive ApprovalStatus : Type := PENDING | APPROVED | REJECTED.

Record BillingPlan : Type := mkPlan {
  plan_id : string;
  plan_name : string;
  plan_type : PlanType
}.

Record CompanyBillingPlan : Type := mkAssignment {
  cbp_company_id : string;
  cbp_plan_id : string;
  start_date : Z;
  end_date : option Z;
  is_active : bool
}.

Record PlanService : Type := mkPlanService {
  ps_plan_id : string;
  ps_service_id : string;
  ps_quantity : option Q;
  custom_rate : option Q
}.

Record Service : Type := mkService {
  service_id : string;
  service_name : string;
  default_rate : option Q;
  unit_of_measure : string
}.

Record TimeEntry : Type := mkTimeEntry {
  te_company_id : string;
  te_service_id : string;
  te_start_time : Z;
  billable_duration : Z;
  approval_status : ApprovalStatus
}.

Record UsageRecord : Type := mkUsage {
  ur_company_id : string;
  ur_service_id : string;
  usage_date : Z;
  ur_quantity : Q
}.

Record BucketUsage : Type := mkBucketUsage {
  bu_company_id : string;
  bu_plan_id : string;
  bu_service_id : string;
  period_start : Z;
  period_end : Z;
  hours_used : Q;
  total_hours : Q;
  overage_rate : Q
}.

Record TaxRate : Type := mkTaxRate {
  tax_rate_id : string;
  tax_percentage : Q;
  is_reverse_charge_applicable : bool
}.

(** A row of [company_tax_settings] (the default) or of
    [company_tax_rates] (the company-specific override). *)
Record CompanyTax : Type := mkCompanyTax {
  ct_company_id : string;
  ct_tax_rate_id : string
}.

Record InvoiceLineItem : Type := mkItem {
  description : string;
  quantity : Q;
  unit_price : Q;
  net_amount : Q
}.

Record Invoice : Type := mkInvoice {
  invoice_id : nat;
  inv_company_id : string;
  subtotal : Q;
  tax : Z;
  total : Q;
  status : InvoiceStatus;
  finalized_at : option Z
}.

(** The billing-record source together with the invoices written so far.
    An invoice identifier is the position of the invoice in [invoices]. *)
Record Db : Type := mkDb {
  billing_plans : list BillingPlan;
  company_billing_plans : list CompanyBillingPlan;
  plan_services : list PlanService;
  service_catalog : list Service;
  time_entries : list TimeEntry;
  usage_tracking : list UsageRecord;
  bucket_usage : list BucketUsage;
  tax_rates : list TaxRate;
  company_tax_settings : list CompanyTax;
  company_tax_rates : list CompanyTax;
  invoices : list Invoice;
  invoice_items : list (nat * InvoiceLineItem)
}.

Inductive BillingError : Type :=
| ValidationError (message : string)
| ComputationError (message : string).

Inductive result (A : Type) : Type :=
| Ok (a : A)
| Rejected (e : BillingError).
Arguments Ok {A} a.
Arguments Rejected {A} e.

Definition rbind {A B} (r : result A) (k : A -> result B) : result B :=
  match r with
  | Ok a => k a
  | Rejected e => Rejected e
  end.

(** Runs [f] over a list, stopping at the first rejection. *)
Fixpoint collect {A B} (f : A -> result (list B)) (l : list A) : result (list B) :=
  match l with
  | [] => Ok []
  | x :: rest =>
      rbind (f x) (fun ys => rbind (collect f rest) (fun zs => Ok (ys ++ zs)))
  end.

Definition isRejected {A} (r : result A) : bool :=
  match r with
  | Ok _ => false
  | Rejected _ => true
  end.

Definition errorText (e : BillingError) : string :=
  match e with
  | ValidationError m => m
  | ComputationError m => m
  end.

Definition inPeriod (t periodStart periodEnd : Z) : bool :=
  (periodStart <=? t)%Z && (t <? periodEnd)%Z.

Definition overlaps (s e periodStart periodEnd : Z) : bool :=
  (s <? periodEnd)%Z && (periodStart <=? e)%Z.

Definition findService (db : Db) (id : string) : option Service :=
  List.find (fun s => String.eqb (service_id s) id) (service_catalog db).

Definition nameOf (svc : option Service) : string :=
  match svc with
  | Some s => service_name s
  | None => ""
  end.

(** [custom_rate ?? service.default_rate] *)
Definition rateOf (ps : PlanService) (svc : option Service) : option Q :=
  match custom_rate ps with
  | Some r => Some r
  | None => svc ≫= default_rate
  end.

Definition servicesOf (db : Db) (plan : BillingPlan) : list PlanService :=
  List.filter (fun ps => String.eqb (ps_plan_id ps) (plan_id plan)) (plan_services db).

Definition lineItem (d : string) (q r : Q) : InvoiceLineItem :=
  {| description := d; quantity := q; unit_price := r; net_amount := (q * r)%Q |}.

Definition missingRate {A} (ps : PlanService) : result A :=
  Rejected (ComputationError ("No rate defined for service " +:+ ps_service_id ps)).

(** Modelled from the spec: the source of [generateInvoice] is not part of
    the repository files at hand; section 4.1, Fixed: one line item per
    plan-service row, net = quantity (default 1) x (custom_rate ??
    default_rate), and a rate missing on both sides is rejected. *)
Definition fixedItems (db : Db) (plan : BillingPlan) : result (list InvoiceLineItem) :=
  collect (fun ps =>
             let svc := findService db (ps_service_id ps) in
             match rateOf ps svc with
             | None => missingRate ps
             | Some r =>
                 Ok [lineItem (nameOf svc)
                       (match ps_quantity ps with Some q => q | None => 1%Q end) r]
             end)
          (servicesOf db plan).

Definition approvedEntries (db : Db) (companyId serviceId : string)
    (periodStart periodEnd : Z) : list TimeEntry :=
  List.filter (fun te =>
                 String.eqb (te_company_id te) companyId
                 && String.eqb (te_service_id te) serviceId
                 && inPeriod (te_start_time te) periodStart periodEnd
                 && match approval_status te with APPROVED => true | _ => false end)
              (time_entries db).

Definition totalMinutes (l : list TimeEntry) : Z :=
  fold_right (fun te acc => (billable_duration te + acc)%Z) 0%Z l.

(** Modelled from the spec: section 4.1, Hourly: the approved time entries
    of the period are grouped by service of the plan; quantity is the sum
    of the billable minutes divided by 60, the unit price is custom_rate ??
    default_rate, one line item per service with entries. *)
Definition hourlyItems (db : Db) (companyId : string) (periodStart periodEnd : Z)
    (plan : BillingPlan) : result (list InvoiceLineItem) :=
  collect (fun ps =>
             let svc := findService db (ps_service_id ps) in
             match approvedEntries db companyId (ps_service_id ps) periodStart periodEnd with
             | [] => Ok []
             | entries =>
                 match rateOf ps svc with
                 | None => missingRate ps
                 | Some r =>
                     Ok [lineItem (nameOf svc)
                           (inject_Z (totalMinutes entries) / 60)%Q r]
                 end
             end)
          (servicesOf db plan).

Definition usageRecords (db : Db) (companyId serviceId : string)
    (periodStart periodEnd : Z) : list UsageRecord :=
  List.filter (fun ur =>
                 String.eqb (ur_company_id ur) companyId
                 && String.eqb (ur_service_id ur) serviceId
                 && inPeriod (usage_date ur) periodStart periodEnd)
              (usage_tracking db).

(** Modelled from the spec: section 4.1, Usage: one line item per usage
    record of the period, never merged; quantity is the record's, the unit
    price is the service's default rate. *)
Definition usageItems (db : Db) (companyId : string) (periodStart periodEnd : Z)
    (plan : BillingPlan) : result (list InvoiceLineItem) :=
  collect (fun ps =>
             let svc := findService db (ps_service_id ps) in
             collect (fun ur =>
                        match svc ≫= default_rate with
                        | None => missingRate ps
                        | Some r => Ok [lineItem (nameOf svc) (ur_quantity ur) r]
                        end)
                     (usageRecords db companyId (ps_service_id ps) periodStart periodEnd))
          (servicesOf db plan).

(** [max(0, hours_used - total_hours)] *)
Definition overage (bu : BucketUsage) : Q :=
  Qmax 0 (hours_used bu - total_hours bu).

(** [overage > 0] *)
Definition hasOverage (bu : BucketUsage) : bool :=
  negb (Qle_bool (overage bu) 0).

(** Modelled from the spec: section 4.1, Bucket: a bucket-usage row with
    overage yields one line item, described by the service name followed by
    "(Overage)", with the overage hours as quantity and the bucket's
    overage rate as unit price; a row without overage yields nothing. *)
Definition bucketRowItems (db : Db) (bu : BucketUsage) : list InvoiceLineItem :=
  if hasOverage bu
  then [lineItem (nameOf (findService db (bu_service_id bu)) +:+ " (Overage)")
          (overage bu) (overage_rate bu)]
  else [].

Definition bucketRows (db : Db) (companyId : string) (periodStart periodEnd : Z)
    (plan : BillingPlan) : list BucketUsage :=
  List.filter (fun bu =>
                 String.eqb (bu_company_id bu) companyId
                 && String.eqb (bu_plan_id bu) (plan_id plan)
                 && overlaps (period_start bu) (period_end bu) periodStart periodEnd)
              (bucket_usage db).

Definition bucketItems (db : Db) (companyId : string) (periodStart periodEnd : Z)
    (plan : BillingPlan) : result (list InvoiceLineItem) :=
  Ok (flat_map (bucketRowItems db) (bucketRows db companyId periodStart periodEnd plan)).

(** PlanAggregator: the line items of one plan. *)
Definition planItems (db : Db) (companyId : string) (periodStart periodEnd : Z)
    (plan : BillingPlan) : result (list InvoiceLineItem) :=
  match plan_type plan with
  | Fixed => fixedItems db plan
  | Hourly => hourlyItems db companyId periodStart periodEnd plan
  | Usage => usageItems db companyId periodStart periodEnd plan
  | Bucket => bucketItems db companyId periodStart periodEnd plan
  end.

(** The plans assigned to the company and active within the period, in
    order of assignment. *)
Definition activePlans (db : Db) (companyId : string) (periodStart periodEnd : Z)
    : list BillingPlan :=
  flat_map (fun a =>
              if String.eqb (cbp_company_id a) companyId
                 && is_active a
                 && (start_date a <? periodEnd)%Z
                 && match end_date a with
                    | Some e => (periodStart <? e)%Z
                    | None => true
                    end
              then List.filter (fun p => String.eqb (plan_id p) (cbp_plan_id a))
                               (billing_plans db)
              else [])
           (company_billing_plans db).

Definition findTaxRate (db : Db) (l : list CompanyTax) (companyId : string) : option TaxRate :=
  ct ← List.find (fun c => String.eqb (ct_company_id c) companyId) l;
  List.find (fun r => String.eqb (tax_rate_id r) (ct_tax_rate_id ct)) (tax_rates db).

(** Modelled from the spec: section 4.2: the company-specific override when
    present, else the default of the company's tax settings, else none. *)
Definition selectTaxRate (db : Db) (companyId : string) : option TaxRate :=
  match findTaxRate db (company_tax_rates db) companyId with
  | Some r => Some r
  | None => findTaxRate db (company_tax_settings db) companyId
  end.

(** Modelled from the spec: section 4.2: the rate applied to the subtotal,
    rounded to the nearest minor unit; no rate, no tax. *)
Definition calculateTax (rate : option TaxRate) (subtotal : Q) : Z :=
  match rate with
  | Some r => Qfloor (subtotal * tax_percentage r / 100 + (1 # 2))%Q
  | None => 0%Z
  end.

Definition sumNet (items : list InvoiceLineItem) : Q :=
  fold_right (fun it acc => (net_amount it + acc)%Q) 0%Q items.

Definition itemsOf (db : Db) (id : nat) : list InvoiceLineItem :=
  snd <$> List.filter (fun p => Nat.eqb (fst p) id) (invoice_items db).

(** InvoiceAssembler: writes the draft invoice and its line items. *)
Definition persistInvoice (db : Db) (companyId : string)
    (items : list InvoiceLineItem) (rate : option TaxRate) : Invoice * Db :=
  let id := length (invoices db) in
  let sub := sumNet items in
  let tx := calculateTax rate sub in
  let inv := {| invoice_id := id; inv_company_id := companyId;
                subtotal := sub; tax := tx; total := (sub + inject_Z tx)%Q;
                status := draft; finalized_at := None |} in
  (inv,
   {| billing_plans := billing_plans db;
      company_billing_plans := company_billing_plans db;
      plan_services := plan_services db;
      service_catalog := service_catalog db;
      time_entries := time_entries db;
      usage_tracking := usage_tracking db;
      bucket_usage := bucket_usage db;
      tax_rates := tax_rates db;
      company_tax_settings := company_tax_settings db;
      company_tax_rates := company_tax_rates db;
      invoices := invoices db ++ [inv];
      invoice_items := invoice_items db ++ ((fun it => (id, it)) <$> items) |}).

(** Modelled from the spec: the source of [generateInvoice] is not part of
    the repository files at hand (only its test is); sections 2, 4.1, 4.2
    and 6: the period is validated first, then the active plans are
    gathered (none is a rejection naming the company), each plan yields its
    line items (a missing required rate is a rejection), the tax is
    computed on the subtotal and the draft invoice is written.  The period
    bounds are instants; the messages are those the test expects. *)
Definition generateInvoice (db : Db) (companyId : string) (periodStart periodEnd : Z)
    : result (Invoice * Db) :=
  if (periodEnd <=? periodStart)%Z
  then Rejected (ValidationError
                   "Invalid billing period: start date must be before end date")
  else
    match activePlans db companyId periodStart periodEnd with
    | [] => Rejected (ComputationError
                        ("No active billing plans found for company " +:+ companyId
                         +:+ " in the given period"))
    | plans =>
        rbind (collect (planItems db companyId periodStart periodEnd) plans)
              (fun items =>
                 Ok (persistInvoice db companyId items (selectTaxRate db companyId)))
    end.

Definition setInvoices (db : Db) (l : list Invoice) : Db :=
  {| billing_plans := billing_plans db;
     company_billing_plans := company_billing_plans db;
     plan_services := plan_services db;
     service_catalog := service_catalog db;
     time_entries := time_entries db;
     usage_tracking := usage_tracking db;
     bucket_usage := bucket_usage db;
     tax_rates := tax_rates db;
     company_tax_settings := company_tax_settings db;
     company_tax_rates := company_tax_rates db;
     invoices := l;
     invoice_items := invoice_items db |}.

(** Modelled from the spec: the source of [finalizeInvoice] is not part of
    the repository files at hand (only its test is); section 4.3: a draft
    invoice becomes [sent] and is stamped with [finalized_at]; an invoice
    that is not a draft, or that does not exist, is rejected. *)
Definition finalizeInvoice (db : Db) (id : nat) (now : Z) : result (Invoice * Db) :=
  match invoices db !! id with
  | None => Rejected (ValidationError "Invoice not found")
  | Some inv =>
      match status inv with
      | draft =>
          let inv' := {| invoice_id := invoice_id inv;
                         inv_company_id := inv_company_id inv;
                         subtotal := subtotal inv; tax := tax inv;
                         total := total inv;
                         status := sent; finalized_at := Some now |} in
          Ok (inv', setInvoices db (<[id := inv']> (invoices db)))
      | _ => Rejected (ValidationError "Invoice is not a draft")
      end
  end.

(** The operations of this subsystem that write invoices. *)
Inductive Action : Type :=
| Generate (companyId : string) (periodStart periodEnd : Z)
| Finalize (id : nat) (now : Z).

(** The database after an action; a rejected action writes nothing. *)
Definition perform (db : Db) (a : Action) : Db :=
  match a with
  | Generate c s e =>
      match generateInvoice db c s e with
      | Ok (_, db') => db'
      | Rejected _ => db
      end
  | Finalize id now =>
      match finalizeInvoice db id now with
      | Ok (_, db') => db'
      | Rejected _ => db
      end
  end.

(** A plan service of [plan] whose rate is needed to price a line item of
    the period and is undefined. *)
Definition missingRequiredRate (db : Db) (companyId : string)
    (periodStart periodEnd : Z) (plan : BillingPlan) (ps : PlanService) : Prop :=
  In ps (servicesOf db plan) /\
  match plan_type plan with
  | Fixed => rateOf ps (findService db (ps_service_id ps)) = None
  | Hourly =>
      approvedEntries db companyId (ps_service_id ps) periodStart periodEnd <> []
      /\ rateOf ps (findService db (ps_service_id ps)) = None
  | Usage =>
      usageRecords db companyId (ps_service_id ps) periodStart periodEnd <> []
      /\ findService db (ps_service_id ps) ≫= default_rate = None
  | Bucket => False
  end.

(** No line item refers to an invoice that has not been written yet. *)
Definition wellFormed (db : Db) : Prop :=
  Forall (fun p => fst p < length (invoices db)) (invoice_items db).

End Billing.

Module BillingExamples.
Import Billing.

(** 2023-01-01T00:00:00Z and 2023-02-01T00:00:00Z in milliseconds. *)
Definition jan1 : Z := 1672531200000.
Definition feb1 : Z := 1675209600000.

Definition vat10 : TaxRate :=
  {| tax_rate_id := "vat-10"; tax_percentage := 10;
     is_reverse_charge_applicable := false |}.

Definition emptyDb : Db :=
  {| billing_plans := []; company_billing_plans := []; plan_services := [];
     service_catalog := []; time_entries := []; usage_tracking := [];
     bucket_usage := []; tax_rates := [vat10];
     company_tax_settings := [ {| ct_company_id := "co1"; ct_tax_rate_id := "vat-10" |} ];
     company_tax_rates := []; invoices := []; invoice_items := [] |}.

Definition assign (planId : string) : CompanyBillingPlan :=
  {| cbp_company_id := "co1"; cbp_plan_id := planId; start_date := jan1;
     end_date := None; is_active := true |}.

(** The database of the test "should calculate taxes correctly". *)
Definition taxableDb : Db :=
  {| billing_plans := [ {| plan_id := "p1"; plan_name := "Taxable Plan"; plan_type := Fixed |} ];
     company_billing_plans := [assign "p1"];
     plan_services := [ {| ps_plan_id := "p1"; ps_service_id := "s1";
                           ps_quantity := Some 1%Q; custom_rate := None |} ];
     service_catalog := [ {| service_id := "s1"; service_name := "Taxable Service";
                             default_rate := Some 50000%Q; unit_of_measure := "unit" |} ];
     time_entries := []; usage_tracking := []; bucket_usage := [];
     tax_rates := [vat10];
     company_tax_settings := [ {| ct_company_id := "co1"; ct_tax_rate_id := "vat-10" |} ];
     company_tax_rates := [ {| ct_company_id := "co1"; ct_tax_rate_id := "vat-10" |} ];
     invoices := []; invoice_items := [] |}.

(** The database of the test "should handle undefined service rates". *)
Definition noRateDb : Db :=
  {| billing_plans := [ {| plan_id := "p1"; plan_name := "Invalid Plan"; plan_type := Fixed |} ];
     company_billing_plans := [assign "p1"];
     plan_services := [ {| ps_plan_id := "p1"; ps_service_id := "s1";
                           ps_quantity := None; custom_rate := None |} ];
     service_catalog := [ {| service_id := "s1"; service_name := "Service Without Rate";
                             default_rate := None; unit_of_measure := "unit" |} ];
     time_entries := []; usage_tracking := []; bucket_usage := [];
     tax_rates := [vat10];
     company_tax_settings := [ {| ct_company_id := "co1"; ct_tax_rate_id := "vat-10" |} ];
     company_tax_rates := []; invoices := []; invoice_items := [] |}.

(** The bucket-usage row of the test "should handle overage charges
    correctly", and one within its allotment. *)
Definition over5 : BucketUsage :=
  {| bu_company_id := "co1"; bu_plan_id := "p1"; bu_service_id := "s1";
     period_start := jan1; period_end := (jan1 + 30 * 86400000)%Z;
     hours_used := 45; total_hours := 40; overage_rate := 7500 |}.

Definition within : BucketUsage :=
  {| bu_company_id := "co1"; bu_plan_id := "p1"; bu_service_id := "s1";
     period_start := jan1; period_end := (jan1 + 30 * 86400000)%Z;
     hours_used := 40; total_hours := 40; overage_rate := 7500 |}.

(** The row [over5] of another company, and of the month before. *)
Definition over5_elsewhere : BucketUsage :=
  {| bu_company_id := "co2"; bu_plan_id := "p1"; bu_service_id := "s1";
     period_start := jan1; period_end := (jan1 + 30 * 86400000)%Z;
     hours_used := 45; total_hours := 40; overage_rate := 7500 |}.

Definition over5_december : BucketUsage :=
  {| bu_company_id := "co1"; bu_plan_id := "p1"; bu_service_id := "s1";
     period_start := (jan1 - 31 * 86400000)%Z; period_end := (jan1 - 86400000)%Z;
     hours_used := 45; total_hours := 40; overage_rate := 7500 |}.

Definition bucketPlan : BillingPlan :=
  {| plan_id := "p1"; plan_name := "Bucket Plan"; plan_type := Bucket |}.

(** A database whose only plan is [bucketPlan], assigned to [co1], with
    the given bucket-usage rows. *)
Definition bucketDbWith (rows : list BucketUsage) : Db :=
  {| billing_plans := [bucketPlan];
     company_billing_plans := [assign "p1"];
     plan_services := [];
     service_catalog := [ {| service_id := "s1"; service_name := "Consulting Hours";
                             default_rate := Some 0%Q; unit_of_measure := "unit" |} ];
     time_entries := []; usage_tracking := []; bucket_usage := rows;
     tax_rates := [vat10];
     company_tax_settings := [ {| ct_company_id := "co1"; ct_tax_rate_id := "vat-10" |} ];
     company_tax_rates := []; invoices := []; invoice_items := [] |}.

Definition bucketDb : Db :=
  {| billing_plans := [ {| plan_id := "p1"; plan_name := "Bucket Plan"; plan_type := Bucket |} ];
     company_billing_plans := [assign "p1"];
     plan_services := [];
     service_catalog := [ {| service_id := "s1"; service_name := "Consulting Hours";
                             default_rate := Some 0%Q; unit_of_measure := "unit" |} ];
     time_entries := []; usage_tracking := []; bucket_usage := [over5];
     tax_rates := [vat10];
     company_tax_settings := [ {| ct_company_id := "co1"; ct_tax_rate_id := "vat-10" |} ];
     company_tax_rates := []; invoices := []; invoice_items := [] |}.

(** [taxableDb] after one invoice was generated for January. *)
Definition draftedDb : Db :=
  match generateInvoice taxableDb "co1" jan1 feb1 with
  | Ok (_, db) => db
  | Rejected _ => taxableDb
  end.

(** [draftedDb] after its invoice was finalized. *)
Definition sentDb : Db := perform draftedDb (Finalize 0 feb1).

End BillingExamples.

(** ** Further vocabulary for the handler *)

Module HandlerTerms.
Import InvoiceEmailHandler.

(** The temporary file of an invoice downloaded at time stamp [stamp]. *)
Definition tempPathOf (invoice : InvoiceViewModel) (stamp : Z) : string :=
  "/tmp/invoice_" +:+ invoice_number invoice +:+ "_" +:+ pretty stamp +:+ ".pdf".

(** The first argument handed to [sendInvoiceEmail]. *)
Definition emailPayload (data : InvoiceEmailJobData) (invoice : InvoiceViewModel)
    (company : ICompany) (recipientEmail recipientName : string) : EmailInvoice :=
  {| ei_invoice :=
       {| invoice_number := invoice_number invoice;
          company_id := company_id invoice;
          contact := Some {| contact_name := recipientName;
                             contact_address := or_else (address company) "" |} |};
     ei_recipientEmail := recipientEmail;
     ei_tenantId := tenantId data;
     ei_company := {| ec_name := company_name company;
                      ec_logo := "";
                      ec_address := or_else (address company) "" |} |}.

(** The four step results of a delivered invoice. *)
Definition deliveredReport (id : string) (pdfStep emailStep : JobStep)
    (invoice : InvoiceViewModel) (company : ICompany)
    (fid recipientEmail recipientName : string) : list JobStepResult :=
  [ {| step := type pdfStep; status := started; invoiceId := id;
       file_id := None; recipientEmail := None;
       details := "Generating PDF for Invoice #" +:+ invoice_number invoice
                  +:+ " (" +:+ company_name company +:+ ")" |};
    {| step := type pdfStep; status := completed; invoiceId := id;
       file_id := Some fid; recipientEmail := None;
       details := "Generated PDF for Invoice #" +:+ invoice_number invoice
                  +:+ " (" +:+ company_name company +:+ ")" |};
    {| step := type emailStep; status := started; invoiceId := id;
       file_id := None; recipientEmail := None;
       details := "Sending Invoice #" +:+ invoice_number invoice +:+ " to "
                  +:+ recipientName +:+ " (" +:+ recipientEmail +:+ ") at "
                  +:+ company_name company |};
    {| step := type emailStep; status := completed; invoiceId := id;
       file_id := None; recipientEmail := Some recipientEmail;
       details := "Successfully sent Invoice #" +:+ invoice_number invoice
                  +:+ " to " +:+ recipientName +:+ " at "
                  +:+ company_name company |} ].

(** A job update that reports a step of an invoice. *)
Definition progress (u : JobUpdate) : Prop :=
  upd_status u = Processing /\ is_Some (upd_stepResult u).

End HandlerTerms.

(** ** Further batches used to exercise the handler *)

Module MoreExamples.
Import InvoiceEmailHandler HandlerExamples.

(** A company without billing contact. *)
Definition plainCo : ICompany :=
  {| company_name := "Plain";
     email := Some "info@plain.test";
     billing_email := Some "billing@plain.test";
     billing_contact_id := None;
     address := None |}.

(** The billing contact [ct1] exists but has no e-mail address. *)
Definition env_contact_without_email : Collaborators :=
  {| getInvoiceForRendering := fun _ => lookupInvoice;
     getCompanyById := fun _ _ => Returned (Some acme);
     ContactModel_get := fun _ _ =>
       Returned (Some {| contact_email := None; full_name := "Pat Payer" |});
     generateAndStore := fun _ id _ _ => Returned ("file-" +:+ id);
     downloadFile := fun _ _ => Returned "%PDF";
     sendInvoiceEmail := fun _ _ _ => Returned true;
     Date_now := fun t => (1700000000000 + Z.of_nat t)%Z;
     fs_writeFile := fun _ _ _ => WriteResolved |}.

(** A job for one invoice that carries no steps. *)
Definition batch_without_steps : InvoiceEmailJobData :=
  {| jobServiceId := "job-1"; tenantId := "tenant-1";
     invoiceIds := ["i1"]; steps := [] |}.

Definition emailStep1 : JobStep :=
  {| stepName := "Send email"; type := "email_sending";
     step_invoiceId := Some "i1"; step_tenantId := "tenant-1" |}.

End MoreExamples.

(** ** The AI control panel: streaming of the assistant's answer *)

Module ControlPanel.

Inductive Role : Type := system | user | assistant.

Record ChatMessage : Type := mkMessage {
  role : Role;
  content : string
}.

Definition isAssistant (m : ChatMessage) : bool :=
  match role m with
  | assistant => true
  | _ => false
  end.

(** Lines 66-78: the state update made for a [token] event, given the text
    accumulated so far.  [updated[lastIndex].content = ...] keeps the role
    of the last message. *)
Definition showAnswer (currentAssistantMessage : string) (prev : list ChatMessage)
    : list ChatMessage :=
  let updated := prev in
  let lastIndex := (Z.of_nat (length updated) - 1)%Z in
  match updated !! Z.to_nat lastIndex with
  | Some m =>
      if (0 <=? lastIndex)%Z && isAssistant m
      then <[Z.to_nat lastIndex := {| role := role m;
                                      content := currentAssistantMessage |}]> updated
      else updated ++ [ {| role := assistant; content := currentAssistantMessage |} ]
  | None => updated ++ [ {| role := assistant; content := currentAssistantMessage |} ]
  end.

(** Lines 63-79: the listener of [token] events; the state is the text
    accumulated in [currentAssistantMessage] and the messages shown. *)
Definition onToken (st : string * list ChatMessage) (data : string)
    : string * list ChatMessage :=
  let currentAssistantMessage := fst st +:+ data in
  (currentAssistantMessage, showAnswer currentAssistantMessage (snd st)).

(** The tokens of a stream, received in order from an empty accumulator. *)
Definition receive (messages : list ChatMessage) (tokens : list string)
    : string * list ChatMessage :=
  foldl onToken ("", messages) tokens.

(** The text of a stream of tokens. *)
Definition textOf (tokens : list string) : string :=
  fold_right String.append "" tokens.

End ControlPanel.

(** ** The tree select of the user interface *)

Module TreeSelect.

Inductive TreeSelectOption : Type :=
| mkOption (label value type : string)
           (children : option (list TreeSelectOption))
           (excluded selected : option bool).

Definition label (o : TreeSelectOption) : string :=
  match o with mkOption l _ _ _ _ _ => l end.
Definition value (o : TreeSelectOption) : string :=
  match o with mkOption _ v _ _ _ _ => v end.
Definition type (o : TreeSelectOption) : string :=
  match o with mkOption _ _ t _ _ _ => t end.
Definition children (o : TreeSelectOption) : option (list TreeSelectOption) :=
  match o with mkOption _ _ _ c _ _ => c end.
Definition excluded (o : TreeSelectOption) : option bool :=
  match o with mkOption _ _ _ _ e _ => e end.
Definition selected (o : TreeSelectOption) : option bool :=
  match o with mkOption _ _ _ _ _ s => s end.

(** Truthiness of an optional flag. *)
Definition flag (b : option bool) : bool :=
  match b with
  | Some true => true
  | _ => false
  end.

(** A [for] loop that returns the first result found. *)
Definition firstFound {A B} (f : A -> option B) : list A -> option B :=
  fix go (l : list A) : option B :=
    match l with
    | [] => None
    | x :: rest =>
        match f x with
        | Some y => Some y
        | None => go rest
        end
    end.

(** Lines 65-72: the body of the loop of [findSelectedOptionWithPath] for
    one option. *)
Fixpoint visit (targetValue : string) (parentPath : list TreeSelectOption)
    (opt : TreeSelectOption) {struct opt}
    : option (TreeSelectOption * list TreeSelectOption) :=
  match opt with
  | mkOption _ v _ ch _ _ =>
      let currentPath := parentPath ++ [opt] in
      if String.eqb v targetValue then Some (opt, currentPath)
      else match ch with
           | Some c => firstFound (visit targetValue currentPath) c
           | None => None
           end
  end.

(** Lines 59-75: [findSelectedOptionWithPath]. *)
Definition findSelectedOptionWithPath (opts : list TreeSelectOption)
    (targetValue : string) (parentPath : list TreeSelectOption)
    : option (TreeSelectOption * list TreeSelectOption) :=
  firstFound (visit targetValue parentPath) opts.

(** [obj[key] = val] on an object created by [{}], with [val] a string,
    as the own properties of [obj]: the key [__proto__] names the accessor
    inherited from [Object.prototype], whose setter ignores a value that is
    neither an object nor [null], so that this assignment adds nothing;
    any other key becomes, or stays, an own property holding [val]. *)
Definition assignProperty (obj : gmap string string) (key val : string)
    : gmap string string :=
  if String.eqb key "__proto__" then obj else <[key := val]> obj.

(** Lines 93-96 and 125-128: the own properties of the path object, keyed
    by option type. *)
Definition pathObjOf (path : list TreeSelectOption) : gmap string string :=
  foldl (fun pathObj opt => assignProperty pathObj (type opt) (value opt)) ∅ path.

(** Lines 99-100 and 133-134: the label shown for a path. *)
Definition displayLabelOf (path : list TreeSelectOption) : string :=
  String.concat " > " (label <$> path).

(** The state of the component that the effect of lines 78-103 writes. *)
Record SelectState : Type := mkSelectState {
  selectedValue : string;
  expandedItems : gset string;
  displayLabel : string
}.

(** Lines 78-103: the effect run when [value] or [options] change. *)
Definition syncValue (options : list TreeSelectOption) (value0 : string)
    (st : SelectState) : SelectState :=
  if truthy_string value0 then
    match findSelectedOptionWithPath options value0 [] with
    | Some (_, path) =>
        {| selectedValue := value0;
           expandedItems := foldl (fun next p => next ∪ {[value p]}) (expandedItems st) path;
           displayLabel := displayLabelOf path |}
    | None =>
        {| selectedValue := value0;
           expandedItems := expandedItems st;
           displayLabel := displayLabel st |}
    end
  else st.

(** Lines 105-117: [toggleExpand] on the set of expanded items. *)
Definition toggleExpand (optionValue : string) (prev : gset string) : gset string :=
  if decide (optionValue ∈ prev) then prev ∖ {[optionValue]}
  else prev ∪ {[optionValue]}.

(** Lines 167-175: [resetOptions], as the options it leaves behind. *)
Fixpoint resetOption (opt : TreeSelectOption) : TreeSelectOption :=
  match opt with
  | mkOption l v t ch _ _ =>
      mkOption l v t
        (match ch with
         | Some c => Some (map resetOption c)
         | None => None
         end)
        (Some false) (Some false)
  end.

Definition resetOptions (opts : list TreeSelectOption) : list TreeSelectOption :=
  map resetOption opts.

(** Line 278: [hasSelections]. *)
Definition hasSelections (options : list TreeSelectOption) : bool :=
  existsb (fun opt => flag (selected opt) || flag (excluded opt)) options.

(** The options of a tree in depth-first order, parents before children. *)
Fixpoint nodesOf (opt : TreeSelectOption) : list TreeSelectOption :=
  match opt with
  | mkOption _ _ _ ch _ _ =>
      opt :: match ch with
             | Some c => flat_map nodesOf c
             | None => []
             end
  end.

Definition nodes (opts : list TreeSelectOption) : list TreeSelectOption :=
  flat_map nodesOf opts.

(** [chain] leads from one of [opts] down through children. *)
Inductive descends : list TreeSelectOption -> list TreeSelectOption -> Prop :=
| descends_here o opts :
    In o opts -> descends opts [o]
| descends_child o c opts chain :
    In o opts -> children o = Some c -> descends c chain ->
    descends opts (o :: chain).

(** Induction over an option and, through it, its children. *)
Fixpoint option_tree_ind (P : TreeSelectOption -> Prop)
    (step : forall l v t ch e s,
        match ch with Some c => Forall P c | None => True end ->
        P (mkOption l v t ch e s))
    (o : TreeSelectOption) {struct o} : P o :=
  match o with
  | mkOption l v t ch e s =>
      step l v t ch e s
        (match ch return match ch with Some c => Forall P c | None => True end with
         | Some c =>
             (fix go (c : list TreeSelectOption) : Forall P c :=
                match c with
                | [] => @List.Forall_nil _ P
                | x :: rest => @List.Forall_cons _ P x rest (option_tree_ind P step x) (go rest)
                end) c
         | None => I
         end)
  end.

End TreeSelect.

Module TreeSelectExamples.
Import TreeSelect.

Definition sub1 : TreeSelectOption :=
  mkOption "Printers" "s1" "subcategory" None None (Some true).

Definition cat1 : TreeSelectOption :=
  mkOption "Hardware" "c1" "category" (Some [sub1]) None None.

Definition cat2 : TreeSelectOption :=
  mkOption "Software" "c2" "category" (Some []) (Some true) None.

Definition board1 : TreeSelectOption :=
  mkOption "Support" "b1" "board" (Some [cat1; cat2]) None None.

Definition board2 : TreeSelectOption :=
  mkOption "Sales" "b2" "board" None None None.

Definition sampleOptions : list TreeSelectOption := [board1; board2].

Definition closedState : SelectState :=
  {| selectedValue := ""; expandedItems := ∅; displayLabel := "Sales" |}.

End TreeSelectExamples.

(** ** The invoice list of the billing dashboard *)

Module Invoices.

Record InvoiceRow : Type := mkRow {
  invoice_id : string;
  invoice_number : string;
  is_manual : bool
}.

Record IInvoiceTemplate : Type := mkTemplate {
  template_id : string;
  template_name : string;
  isStandard : bool
}.

(** Lines 118-124: [handleSelectAll]. *)
Definition handleSelectAll (invoices : list InvoiceRow) (checked : bool) : gset string :=
  if checked then list_to_set (invoice_id <$> invoices) else ∅.

(** Lines 126-134: [handleSelectInvoice]. *)
Definition handleSelectInvoice (selectedInvoices : gset string)
    (invoiceId : string) (checked : bool) : gset string :=
  if checked then selectedInvoices ∪ {[invoiceId]}
  else selectedInvoices ∖ {[invoiceId]}.

(** Line 144: the state of the check box in the table header. *)
Definition headerChecked (invoices : list InvoiceRow) (selectedInvoices : gset string) : bool :=
  (0 <? size selectedInvoices)%nat && (size selectedInvoices =? length invoices)%nat.

(** The search parameters of the page's URL: name-value pairs in order. *)
Definition get (name : string) (sp : list (string * string)) : option string :=
  snd <$> List.find (fun p => String.eqb (fst p) name) sp.

(** [URLSearchParams.delete]: removes every pair with the name. *)
Definition delete (name : string) (sp : list (string * string)) : list (string * string) :=
  List.filter (fun p => negb (String.eqb (fst p) name)) sp.

(** [URLSearchParams.set]: the first pair with the name takes the value and
    the later ones are removed; without such a pair one is appended. *)
Fixpoint set (name val : string) (sp : list (string * string)) : list (string * string) :=
  match sp with
  | [] => [(name, val)]
  | p :: rest =>
      if String.eqb (fst p) name then (name, val) :: delete name rest
      else p :: set name val rest
  end.

(** Lines 54-64: [updateUrlParams], as the parameters of the URL pushed to
    the router, taken to be read back unchanged. *)
Definition updateUrlParams (searchParams : list (string * string))
    (params : list (string * option string)) : list (string * string) :=
  foldl (fun newParams kv =>
           match snd kv with
           | None => delete (fst kv) newParams
           | Some v => set (fst kv) v newParams
           end)
        searchParams params.

(** Lines 97-104: [handleInvoiceSelect]. *)
Definition handleInvoiceSelect (templates : list IInvoiceTemplate)
    (searchParams : list (string * string)) (invoice : InvoiceRow)
    : list (string * string) :=
  let defaultTemplateId :=
    match templates with
    | t :: _ => Some (template_id t)
    | [] => None
    end in
  updateUrlParams searchParams
    [ ("invoiceId", Some (invoice_id invoice));
      ("templateId", defaultTemplateId);
      ("managingInvoiceId", None) ].

(** Lines 106-108: [handleTemplateSelect]. *)
Definition handleTemplateSelect (searchParams : list (string * string))
    (templateId : string) : list (string * string) :=
  updateUrlParams searchParams [ ("templateId", Some templateId) ].

(** Lines 110-116: [handleManageItemsClick]. *)
Definition handleManageItemsClick (searchParams : list (string * string))
    (invoice : InvoiceRow) : list (string * string) :=
  updateUrlParams searchParams
    [ ("managingInvoiceId", Some (invoice_id invoice));
      ("invoiceId", None);
      ("templateId", None) ].

(** Lines 260-265: [onGenerateSuccess]. *)
Definition onGenerateSuccess (searchParams : list (string * string))
    : list (string * string) :=
  updateUrlParams searchParams [ ("managingInvoiceId", None) ].

(** Lines 49 and 51: the invoice named by a URL parameter, if any. *)
Definition invoiceFor (name : string) (invoices : list InvoiceRow)
    (searchParams : list (string * string)) : option InvoiceRow :=
  match get name searchParams with
  | Some id =>
      if truthy_string id
      then List.find (fun inv => String.eqb (invoice_id inv) id) invoices
      else None
  | None => None
  end.

(** What the user does on the page. *)
Inductive Click : Type :=
| RowClick (invoice : InvoiceRow)
| TemplateChoice (templateId : string)
| ManageItems (invoice : InvoiceRow)
| GenerateSuccess.

Definition afterClick (templates : list IInvoiceTemplate)
    (searchParams : list (string * string)) (c : Click) : list (string * string) :=
  match c with
  | RowClick invoice => handleInvoiceSelect templates searchParams invoice
  | TemplateChoice templateId => handleTemplateSelect searchParams templateId
  | ManageItems invoice => handleManageItemsClick searchParams invoice
  | GenerateSuccess => onGenerateSuccess searchParams
  end.

End Invoices.

(** ** The schedule calendar *)

Module ScheduleCalendar.

Record IScheduleEntry : Type := mkEntry {
  entry_id : string;
  title : string;
  scheduled_start : Z;
  scheduled_end : Z;
  assigned_user_ids : list string;
  original_entry_id : option string;
  recurrence_pattern : option string
}.

(** Lines 311-318: [updateEventLocally], as the events it stores. *)
Definition updateEventLocally (events : list IScheduleEntry)
    (updatedEvent : IScheduleEntry) : list IScheduleEntry :=
  match list_find (fun e => entry_id e = entry_id updatedEvent) events with
  | Some (index, _) => <[index := updatedEvent]> events
  | None => events
  end.

(** Lines 343-350 (and 321-328): the event built when an event is dropped
    or resized; the spread copies every field of [event] first. *)
Definition rescheduled (event : IScheduleEntry) (start end_ : Z) : IScheduleEntry :=
  {| entry_id := entry_id event;
     title := title event;
     scheduled_start := start;
     scheduled_end := end_;
     assigned_user_ids := assigned_user_ids event;
     original_entry_id :=
       if includes (entry_id event) "_" then original_entry_id event
       else original_entry_id event;
     recurrence_pattern := recurrence_pattern event |}.

End ScheduleCalendar.

(** * Properties *)

Module JsFacts.

Lemma includes_prefix h n : String.prefix n h = true -> includes h n = true.
Proof. intros H. destruct h; cbn -[String.prefix]; by rewrite H. Qed.

Lemma prefix_append s t : String.prefix s (s +:+ t) = true.
Proof.
  induction s as [|a s IH]; simpl; [by destruct t|].
  by destruct (Ascii.ascii_dec a a).
Qed.

Lemma includes_append_r a h n :
  includes h n = true -> includes (a +:+ h) n = true.
Proof.
  intros H. induction a as [|c a IH]; [done|].
  change (String.prefix n (String c (a +:+ h)) || includes (a +:+ h) n = true).
  rewrite IH. apply orb_true_r.
Qed.

Lemma includes_middle a s b : includes (a +:+ s +:+ b) s = true.
Proof. apply includes_append_r, includes_prefix, prefix_append. Qed.

End JsFacts.

Module HandlerFacts.
Import InvoiceEmailHandler HandlerSpec HandlerExamples JsFacts.

Lemma evolves_refl w : evolves w w [] [] [].
Proof. split; rewrite ?app_nil_r; auto. by intros p ?%elem_of_nil. Qed.

Lemma evolves_trans w1 w2 w3 d1 d2 ps1 ps2 ls1 ls2 :
  evolves w1 w2 d1 ps1 ls1 -> evolves w2 w3 d2 ps2 ls2 ->
  evolves w1 w3 (d1 ++ d2) (ps1 ++ ps2) (ls1 ++ ls2).
Proof.
  intros [L1 W1 R1 F1] [L2 W2 R2 F2]. split.
  - by rewrite L2, L1, app_assoc.
  - by rewrite W2, W1, app_assoc.
  - intros p Hp Hl. apply not_elem_of_app in Hl as [Hl1 Hl2].
    destruct (decide (p ∈ ps2)) as [Hin|Hout]; [by apply R2|].
    rewrite F2 by done. apply R1; [|done]. by apply elem_of_app in Hp as [?|?].
  - intros p Hp Hl. apply not_elem_of_app in Hl as [Hl1 Hl2].
    apply not_elem_of_app in Hp as [Hp1 Hp2]. by rewrite F2, F1.
Qed.

Lemma leftover_nil env : leftover env [].
Proof. by left. Qed.

Lemma stepOf_results id d :
  Forall (stepOf id) d ->
  length (stepResultsOf d) = length d /\ owners d = replicate (length d) id.
Proof.
  unfold owners, stepResultsOf.
  induction 1 as [|u d [_ Hu] _ [IH1 IH2]]; [done|].
  simpl. destruct (upd_stepResult u) as [r|]; simplify_eq/=.
  by rewrite IH1, IH2.
Qed.

Lemma statuses_length d id n :
  Forall (stepOf id) d -> statuses d = n -> length d = length n.
Proof.
  intros Hd <-. unfold statuses. rewrite length_fmap.
  symmetry. by apply (stepOf_results id).
Qed.

Section Stages.
Variable env : Collaborators.
Variable pgBossJobId : string.
Variable data : InvoiceEmailJobData.

Abbreviation stepUpdate := (stepUpdate pgBossJobId data).
Abbreviation failedUpdate := (failedUpdate pgBossJobId data).

Ltac exec :=
  unfold step_type in *;
  unfold bind, try_catch, try_finally, await, now, updateJobStatus,
    writeFile, unlink, ret, throw in *;
  repeat (simpl in *; simplify_map_eq; try case_match).

Ltac solve_evolves :=
  split; simpl;
  [ first [ symmetry; apply app_nil_r | rewrite <- ?app_assoc; reflexivity ]
  | first [ symmetry; apply app_nil_r | rewrite <- ?app_assoc; reflexivity ]
  | intros ? Hin Hout; set_unfold in Hin; destruct_or?; simplify_map_eq; done
  | intros ? Hin Hout; set_unfold in Hin; set_unfold in Hout; simplify_map_eq;
    rewrite ?lookup_delete_ne, ?lookup_insert_ne by naive_solver; done ].

Ltac solve_steps :=
  split_and!;
  [ solve_evolves | simpl; repeat constructor | first [ reflexivity | simpl; lia ] ].

Ltac solve_sent :=
  split_and!;
  [ solve_evolves | simpl; repeat constructor | simpl; lia | auto
  | first [ apply leftover_nil | right; eauto 10 ] ].

Lemma fetchDetails_evolves id w :
  evolves w (fetchDetails env id w).2 [] [] [].
Proof.
  unfold fetchDetails. exec; solve_evolves.
Qed.

Lemma generatePdf_spec id pdfStep invoice company w :
  match generatePdf env pgBossJobId data id pdfStep invoice company w with
  | (Returned _, w') =>
      exists d, evolves w w' d [] [] /\ Forall (stepOf id) d /\
        statuses d = [started; completed]
  | (Threw _, w') =>
      exists d, evolves w w' d [] [] /\ Forall (stepOf id) d /\ length d <= 1
  end.
Proof.
  unfold generatePdf. exec.
  - eexists [_; _]. solve_steps.
  - eexists [_]. solve_steps.
  - exists []. solve_steps.
Qed.

Lemma resolveRecipient_evolves invoice company w :
  evolves w (resolveRecipient env invoice company w).2 [] [] [].
Proof.
  unfold resolveRecipient. exec; solve_evolves.
Qed.

Lemma sendEmail_spec id emailStep invoice company fid rcpt name w :
  match sendEmail env pgBossJobId data id emailStep invoice company fid rcpt name w with
  | (Returned _, w') =>
      exists d ps, evolves w w' d ps [] /\ Forall (stepOf id) d /\
        statuses d = [started; completed]
  | (Threw _, w') =>
      exists d ps ls, evolves w w' d ps ls /\ Forall (stepOf id) d /\
        length d <= 1 /\ (ls = [] \/ ps = []) /\ leftover env ls
  end.
Proof.
  unfold sendEmail. exec.
  all: try (eexists [_; _], [_]; solve_steps; fail).
  all: try match goal with
       | H : fs_writeFile _ _ ?p _ = WriteRejected _ (Some _) |- _ =>
           eexists [_], [], [p]; solve_sent; fail
       end.
  all: first [ eexists [_], [_], []; solve_sent; fail
             | eexists [_], [], []; solve_sent; fail
             | eexists [], [], []; solve_sent ].
Qed.

Lemma reportFailure_spec id e w :
  match reportFailure env pgBossJobId data id e w with
  | (Returned _, _) => False
  | (Threw e', w') =>
      exists d, evolves w w' d [] [] /\
        (d = [] \/ (e' = e /\ exists msg, d = [failedUpdate msg]))
  end.
Proof.
  unfold reportFailure. exec.
  all: try (eexists [_]; split; [solve_evolves | right; eauto]).
  all: try (eexists []; split; [solve_evolves | left; eauto]).
Qed.

Lemma processBody_spec i id w :
  match processBody env pgBossJobId data i id w with
  | (Returned _, w') =>
      exists d ps, evolves w w' d ps [] /\ invoiceReport id d
  | (Threw _, w') =>
      exists d ps ls, evolves w w' d ps ls /\ Forall (stepOf id) d /\
        length d <= 3 /\ (ls = [] \/ ps = []) /\ leftover env ls
  end.
Proof.
  unfold processBody, bind.
  pose proof (fetchDetails_evolves id w) as Hf.
  destruct (fetchDetails env id w) as [[[invoice company]|e] w1]; simpl in Hf;
    [|exists [], [], [];
      split_and!; [done|constructor|simpl; lia|by left|by left]].
  pose proof (generatePdf_spec id (steps data !! (i * 2)) invoice company w1) as Hg.
  destruct (generatePdf _ _ _ _ _ _ _ w1) as [[fid|e] w2].
  2: { destruct Hg as (d & Hev & Hd & Hlen).
       exists ([] ++ d), ([] ++ []), ([] ++ []).
       split_and!; [by eapply evolves_trans|done|simpl; lia|by left|by left]. }
  destruct Hg as (d1 & Hev1 & Hd1 & Hst1).
  assert (length d1 = 2) as Hlen1 by (apply (statuses_length _ id _ Hd1 Hst1)).
  pose proof (evolves_trans _ _ _ _ _ _ _ _ _ Hf Hev1) as Hev12. simpl in Hev12.
  pose proof (resolveRecipient_evolves invoice company w2) as Hr.
  destruct (resolveRecipient env invoice company w2) as [[[rcpt name]|e] w3];
    simpl in Hr; pose proof (evolves_trans _ _ _ _ _ _ _ _ _ Hev12 Hr) as Hev3;
    rewrite app_nil_r in Hev3; simpl in Hev3.
  2: { exists d1, [], []. split_and!; [done|done|lia|by left|by left]. }
  pose proof (sendEmail_spec id (steps data !! (i * 2 + 1)) invoice company
                fid rcpt name w3) as Hs.
  destruct (sendEmail _ _ _ _ _ _ _ _ _ _ w3) as [[[]|e] w4].
  - destruct Hs as (d2 & ps & Hev4 & Hd2 & Hlen2).
    exists (d1 ++ d2), ([] ++ ps).
    split; [by apply (evolves_trans _ _ _ _ _ _ _ _ _ Hev3 Hev4)|].
    split; [by apply Forall_app|].
    unfold statuses, stepResultsOf in *. by rewrite omap_app, fmap_app, Hst1, Hlen2.
  - destruct Hs as (d2 & ps & ls & Hev4 & Hd2 & Hlen2 & Hone & Hleft).
    exists (d1 ++ d2), ([] ++ ps), ([] ++ ls).
    split_and!; [by eapply evolves_trans|by apply Forall_app
                |rewrite length_app; lia|done|done].
Qed.

Lemma processInvoice_spec i id w :
  match processInvoice env pgBossJobId data i id w with
  | (Returned _, w') =>
      exists d ps, evolves w w' d ps [] /\ invoiceReport id d
  | (Threw e, w') =>
      exists d f ps ls, evolves w w' (d ++ f) ps ls /\ Forall (stepOf id) d /\
        length d <= 3 /\ (f = [] \/ exists msg, f = [failedUpdate msg]) /\
        (ls = [] \/ ps = []) /\ leftover env ls
  end.
Proof.
  unfold processInvoice, try_catch.
  pose proof (processBody_spec i id w) as Hb.
  destruct (processBody _ _ _ i id w) as [[[]|e] w1]; [done|].
  destruct Hb as (d & ps & ls & Hev & Hd & Hlen & Hone & Hleft).
  pose proof (reportFailure_spec id e w1) as Hr.
  destruct (reportFailure _ _ _ _ _ w1) as [[?|e'] w']; [done|].
  destruct Hr as (f & Hev' & Hf'). exists d, f, (ps ++ []), (ls ++ []).
  split_and!; [by eapply evolves_trans|done|done|
               |by rewrite !app_nil_r|by rewrite app_nil_r].
  destruct Hf' as [?|[_ ?]]; [by left|by right].
Qed.

Abbreviation forEachInvoice := (forEachInvoice env pgBossJobId data).
Abbreviation processInvoice := (processInvoice env pgBossJobId data).
Abbreviation handle := (handle env pgBossJobId data).

Lemma forEachInvoice_app l1 l2 i w :
  forEachInvoice i (l1 ++ l2) w =
  match forEachInvoice i l1 w with
  | (Returned _, w1) => forEachInvoice (i + length l1) l2 w1
  | (Threw e, w1) => (Threw e, w1)
  end.
Proof.
  revert i w. induction l1 as [|id l1 IH]; intros i w; simpl.
  - by rewrite Nat.add_0_r.
  - unfold bind. destruct (processInvoice i id w) as [[[]|e] w1]; [|done].
    rewrite IH. by replace (S i + length l1) with (i + S (length l1)) by lia.
Qed.

Lemma forEachInvoice_returned ids i w w' :
  forEachInvoice i ids w = (Returned tt, w') ->
  exists d ps, evolves w w' d ps [] /\ batchReport ids d.
Proof.
  revert i w. induction ids as [|id ids IH]; intros i w; simpl.
  - intros [= <-]. exists [], []. split; [apply evolves_refl|constructor].
  - unfold bind. pose proof (processInvoice_spec i id w) as Hp.
    destruct (processInvoice i id w) as [[[]|e] w1]; [|done].
    destruct Hp as (d1 & ps1 & Hev1 & Hrep). intros Hrest.
    destruct (IH _ _ Hrest) as (d & ps & Hev & Hbatch).
    exists (d1 ++ d), (ps1 ++ ps).
    split; [by apply (evolves_trans _ _ _ _ _ _ _ _ _ Hev1 Hev)|by constructor].
Qed.

Lemma forEachInvoice_threw ids i w e w' :
  forEachInvoice i ids w = (Threw e, w') ->
  exists k id wk,
    ids !! k = Some id /\
    forEachInvoice i (take k ids) w = (Returned tt, wk) /\
    processInvoice (i + k) id wk = (Threw e, w').
Proof.
  revert i w. induction ids as [|id ids IH]; intros i w; simpl; [done|].
  unfold bind. destruct (processInvoice i id w) as [[[]|e1] w1] eqn:Hp.
  - intros Hrest. destruct (IH _ _ Hrest) as (k & id' & wk & Hk & Hpre & Hfail).
    exists (S k), id', wk. simpl. unfold bind. rewrite Hp.
    by replace (i + S k) with (S i + k) by lia.
  - intros [= <- <-]. exists 0, id, w. by rewrite Nat.add_0_r.
Qed.

Lemma owners_app d1 d2 : owners (d1 ++ d2) = owners d1 ++ owners d2.
Proof. unfold owners, stepResultsOf. by rewrite omap_app, fmap_app. Qed.

Lemma batchReport_owners ids d :
  batchReport ids d ->
  owners d = ids ≫= replicate 4 /\
  statuses d = ids ≫= (fun _ => [started; completed; started; completed]) /\
  Forall (fun u => upd_status u = Processing) d.
Proof.
  induction 1 as [|id ids d1 d [Hd1 Hst] _ (IH1 & IH2 & IH3)]; [done|].
  pose proof (statuses_length _ _ _ Hd1 Hst) as Hlen. simpl in Hlen.
  destruct (stepOf_results _ _ Hd1) as [_ Hown].
  split_and!.
  - by rewrite owners_app, Hown, Hlen, IH1.
  - unfold statuses, stepResultsOf in *.
    by rewrite omap_app, fmap_app, Hst, IH2.
  - apply Forall_app. split; [|done].
    eapply Forall_impl; [done|]. by intros u [? _].
Qed.

Lemma bind_replicate_length {A} (l : list A) n :
  length (l ≫= replicate n) = n * length l.
Proof.
  induction l as [|x l IH]; [simpl; lia|].
  rewrite bind_cons, length_app, length_replicate, IH. simpl. lia.
Qed.

Lemma runBatch_threw w e w1 :
  forEachInvoice 0 (invoiceIds data) w = (Threw e, w1) ->
  runBatch env pgBossJobId data w =
  (Threw e,
   {| job_log := job_log w1 ++ [failedUpdate (errorMessage e)];
      fs := fs w1; fs_written := fs_written w1; tick := tick w1 |}).
Proof. intros H. unfold runBatch, try_catch, bind. by rewrite H. Qed.

Lemma runBatch_returned w w1 :
  forEachInvoice 0 (invoiceIds data) w = (Returned tt, w1) ->
  runBatch env pgBossJobId data w =
  (Returned tt,
   {| job_log := job_log w1 ++
        [completedUpdate pgBossJobId data
           ("Successfully processed " +:+ pretty (length (invoiceIds data))
            +:+ " invoice(s)")];
      fs := fs w1; fs_written := fs_written w1; tick := tick w1 |}).
Proof. intros H. unfold runBatch, try_catch, bind. by rewrite H. Qed.

Lemma handle_runBatch w :
  truthy_string (jobServiceId data) = true ->
  truthy_string (tenantId data) = true ->
  invoiceIds data <> [] ->
  handle w = runBatch env pgBossJobId data w.
Proof.
  intros Hj Ht Hids. unfold InvoiceEmailHandler.handle. rewrite Hj, Ht. simpl.
  by destruct (invoiceIds data).
Qed.

Lemma forEachInvoice_fails_at k id w wk e w1 :
  invoiceIds data !! k = Some id ->
  forEachInvoice 0 (take k (invoiceIds data)) w = (Returned tt, wk) ->
  processInvoice k id wk = (Threw e, w1) ->
  forEachInvoice 0 (invoiceIds data) w = (Threw e, w1).
Proof.
  intros Hk Hpre Hfail.
  rewrite <- (take_drop_middle _ _ _ Hk) at 1.
  rewrite forEachInvoice_app, Hpre. simpl.
  rewrite length_take_le by (apply Nat.lt_le_incl; by eapply lookup_lt_Some).
  unfold bind. by rewrite Hfail.
Qed.

(** C1: when processing invoice [k] raises, [handle] raises the same
    error, the last update of the job is [Failed], no update marks the job
    [Completed], and the step results emitted are those of invoices
    [0..k-1] (four each) followed by at most three for invoice [k], so
    none belongs to a later invoice; when the loop processes every
    invoice, [handle] returns and the last update is [Completed]. *)
Theorem handle_fail_fast w :
  truthy_string (jobServiceId data) = true ->
  truthy_string (tenantId data) = true ->
  (forall k id wk e w1,
      invoiceIds data !! k = Some id ->
      forEachInvoice 0 (take k (invoiceIds data)) w = (Returned tt, wk) ->
      processInvoice k id wk = (Threw e, w1) ->
      exists w' d n,
        handle w = (Threw e, w') /\
        job_log w' = job_log w ++ d /\
        upd_status <$> last d = Some Failed /\
        Forall (fun u => upd_status u <> Completed) d /\
        n <= 3 /\
        owners d = (take k (invoiceIds data) ≫= replicate 4) ++ replicate n id)
  /\
  (forall w1,
      invoiceIds data <> [] ->
      forEachInvoice 0 (invoiceIds data) w = (Returned tt, w1) ->
      exists w' d,
        handle w = (Returned tt, w') /\
        job_log w' = job_log w ++ d /\
        upd_status <$> last d = Some Completed /\
        Forall (fun u => upd_status u <> Failed) d).
Proof.
  intros Hj Ht. split.
  - intros k id wk e w1 Hk Hpre Hfail.
    pose proof (forEachInvoice_fails_at _ _ _ _ _ _ Hk Hpre Hfail) as Hloop.
    rewrite handle_runBatch by (try done; intros Hnil; by rewrite Hnil in Hk).
    rewrite (runBatch_threw _ _ _ Hloop).
    destruct (forEachInvoice_returned _ _ _ _ Hpre) as (d0 & ps0 & Hev0 & Hb0).
    destruct (batchReport_owners _ _ Hb0) as (Hown0 & _ & Hproc0).
    pose proof (processInvoice_spec k id wk) as Hp. rewrite Hfail in Hp.
    destruct Hp as (dk & f & ps & ls & Hev & Hdk & Hlen & Hf & _).
    destruct (stepOf_results _ _ Hdk) as [_ Hownk].
    eexists _, (d0 ++ (dk ++ f) ++ [failedUpdate (errorMessage e)]), (length dk).
    split_and!; [done| | | |done|].
    + simpl. rewrite (ev_log _ _ _ _ _ Hev), (ev_log _ _ _ _ _ Hev0).
      by rewrite <- !app_assoc.
    + by rewrite !app_assoc, last_snoc.
    + rewrite !Forall_app. split_and!.
      * eapply Forall_impl; [done|]. intros u Hu. by rewrite Hu.
      * eapply Forall_impl; [done|]. intros u [Hu _]. by rewrite Hu.
      * destruct Hf as [->|[msg ->]]; repeat constructor; done.
      * repeat constructor; done.
    + rewrite !owners_app, Hown0, Hownk.
      destruct Hf as [->|[msg ->]]; simpl; by rewrite !app_nil_r.
  - intros w1 Hids Hloop.
    rewrite handle_runBatch, (runBatch_returned _ _ Hloop) by done.
    destruct (forEachInvoice_returned _ _ _ _ Hloop) as (d & ps & Hev & Hb).
    destruct (batchReport_owners _ _ Hb) as (_ & _ & Hproc).
    eexists _, (d ++ [_]). split_and!; [done| | |].
    + simpl. by rewrite (ev_log _ _ _ _ _ Hev), <- !app_assoc.
    + by rewrite last_snoc.
    + rewrite Forall_app. split; [|repeat constructor; done].
      eapply Forall_impl; [done|]. intros u Hu. by rewrite Hu.
Qed.

(** C2 (amended): a batch of N invoices processed to full success emits
    exactly 4N step results (started and completed for the PDF step, then
    started and completed for the e-mail step), in strict per-invoice
    order. *)
Theorem step_results_on_success w w' :
  handle w = (Returned tt, w') ->
  exists d,
    job_log w' = job_log w ++ d /\
    length (stepResultsOf d) = 4 * length (invoiceIds data) /\
    owners d = invoiceIds data ≫= replicate 4 /\
    statuses d =
      invoiceIds data ≫= (fun _ => [started; completed; started; completed]).
Proof.
  unfold InvoiceEmailHandler.handle, throw.
  destruct (truthy_string (jobServiceId data)); [|done].
  destruct (truthy_string (tenantId data)); [|done]. simpl.
  destruct (invoiceIds data) as [|id0 ids0] eqn:Hids; [done|]. rewrite <- Hids.
  destruct (forEachInvoice 0 (invoiceIds data) w) as [[[]|e] w1] eqn:Hloop.
  2: { by rewrite (runBatch_threw _ _ _ Hloop). }
  rewrite (runBatch_returned _ _ Hloop). intros [= <-].
  destruct (forEachInvoice_returned _ _ _ _ Hloop) as (d & ps & Hev & Hb).
  destruct (batchReport_owners _ _ Hb) as (Hown & Hst & _).
  eexists (d ++ [_]). split_and!.
  - simpl. by rewrite (ev_log _ _ _ _ _ Hev), <- !app_assoc.
  - transitivity (length (owners (d ++ [completedUpdate pgBossJobId data
      ("Successfully processed " +:+ pretty (length (invoiceIds data))
       +:+ " invoice(s)")]))).
    { unfold owners. by rewrite length_fmap. }
    rewrite owners_app, Hown, length_app, bind_replicate_length. simpl. lia.
  - rewrite owners_app, Hown. simpl. by rewrite app_nil_r.
  - unfold statuses, stepResultsOf in *. rewrite omap_app, fmap_app, Hst.
    simpl. by rewrite app_nil_r.
Qed.


Lemma reportFailure_returned id e w oinv ocom :
  getInvoiceForRendering env (tick w) id = Returned oinv ->
  match oinv with
  | Some inv => getCompanyById env (S (tick w)) (company_id inv)
  | None => Returned None
  end = Returned ocom ->
  exists n,
    reportFailure env pgBossJobId data id e w =
    (Threw e,
     {| job_log := job_log w ++ [failedUpdate (contextualError id oinv ocom e)];
        fs := fs w; fs_written := fs_written w; tick := n + tick w |}).
Proof.
  intros Hinv Hcom. unfold reportFailure, bind, await, ret, updateJobStatus, throw.
  rewrite Hinv. destruct oinv as [inv|]; simpl in *.
  - rewrite Hcom. by exists 2.
  - simplify_eq. by exists 1.
Qed.

(** C5 (amended): when the [try] block of invoice [k] raises [e] and the
    look-ups made by the [catch] return, a [Failed] update carrying
    [Failed to process Invoice #<n> for <c>: <message of e>] is recorded,
    then a second [Failed] update carrying the bare message, and [e]
    reaches the caller; the contextual message contains the invoice
    number and the company name whenever these exist and are not
    empty. *)
Theorem failure_recorded_and_rethrown w k id wk e w1 oinv ocom :
  truthy_string (jobServiceId data) = true ->
  truthy_string (tenantId data) = true ->
  invoiceIds data !! k = Some id ->
  forEachInvoice 0 (take k (invoiceIds data)) w = (Returned tt, wk) ->
  processBody env pgBossJobId data k id wk = (Threw e, w1) ->
  getInvoiceForRendering env (tick w1) id = Returned oinv ->
  match oinv with
  | Some inv => getCompanyById env (S (tick w1)) (company_id inv)
  | None => Returned None
  end = Returned ocom ->
  (exists w',
      handle w = (Threw e, w') /\
      job_log w' = job_log w1 ++
        [failedUpdate (contextualError id oinv ocom e);
         failedUpdate (errorMessage e)]) /\
  (forall inv, oinv = Some inv -> truthy_string (invoice_number inv) = true ->
      includes (contextualError id oinv ocom e) (invoice_number inv) = true) /\
  (forall com, ocom = Some com -> truthy_string (company_name com) = true ->
      includes (contextualError id oinv ocom e) (company_name com) = true).
Proof.
  intros Hj Ht Hk Hpre Hbody Hinv Hcom. split_and!.
  - destruct (reportFailure_returned id e w1 _ _ Hinv Hcom) as [n Hrep].
    assert (processInvoice k id wk = (Threw e,
      {| job_log := job_log w1 ++ [failedUpdate (contextualError id oinv ocom e)];
         fs := fs w1; fs_written := fs_written w1; tick := n + tick w1 |})) as Hp.
    { unfold InvoiceEmailHandler.processInvoice, try_catch. by rewrite Hbody. }
    pose proof (forEachInvoice_fails_at _ _ _ _ _ _ Hk Hpre Hp) as Hloop.
    rewrite handle_runBatch by (try done; intros Hnil; by rewrite Hnil in Hk).
    rewrite (runBatch_threw _ _ _ Hloop). eexists. split; [done|].
    simpl. by rewrite <- app_assoc.
  - intros inv -> Hn. unfold contextualError.
    change (invoice_number <$> Some inv) with (Some (invoice_number inv)).
    unfold or_else at 1. rewrite Hn. apply includes_middle.
  - intros com -> Hn. unfold contextualError.
    change (company_name <$> Some com) with (Some (company_name com)).
    unfold or_else at 2. rewrite Hn.
    apply includes_append_r, includes_append_r, includes_middle.
Qed.

End Stages.

Section Recipient.
Variable env : Collaborators.

(** The recipient when no billing contact is configured: the billing
    e-mail when set, else the general e-mail. *)
Lemma resolveRecipient_without_contact invoice company w :
  truthy (billing_contact_id company) = false ->
  resolveRecipient env invoice company w =
    (let chosen := if truthy (billing_email company)
                   then billing_email company else email company in
     if truthy chosen
     then Returned (get chosen, company_name company)
     else Threw (JsError ("No valid email address found for "
                          +:+ company_name company +:+ " (Invoice #"
                          +:+ invoice_number invoice +:+ ")")),
     w).
Proof.
  intros Hid. unfold resolveRecipient, bind, ret, throw. rewrite Hid.
  destruct (truthy (billing_email company)) eqn:Hb; simpl.
  - by rewrite Hb.
  - by destruct (truthy (email company)).
Qed.

(** The recipient when the configured billing contact is found. *)
Lemma resolveRecipient_contact_found invoice company w c :
  truthy (billing_contact_id company) = true ->
  ContactModel_get env (tick w) (get (billing_contact_id company)) = Returned (Some c) ->
  truthy (contact_email c) = true ->
  resolveRecipient env invoice company w =
    (Returned (get (contact_email c), full_name c), ticked 1 w).
Proof.
  intros Hid Hget Hmail. unfold resolveRecipient, bind, await, ret, throw.
  rewrite Hid, Hget. simpl. by rewrite Hmail.
Qed.

(** C10: when [billing_contact_id] is set and the contact look-up returns
    no contact, the recipient is the company's general e-mail address (a
    hard failure when there is none), whatever [billing_email] holds. *)
Theorem dangling_billing_contact invoice company w :
  truthy (billing_contact_id company) = true ->
  ContactModel_get env (tick w) (get (billing_contact_id company)) = Returned None ->
  resolveRecipient env invoice company w =
    ((if truthy (email company)
      then Returned (get (email company), company_name company)
      else Threw (JsError ("No valid email address found for "
                           +:+ company_name company +:+ " (Invoice #"
                           +:+ invoice_number invoice +:+ ")"))),
     ticked 1 w) /\
  forall b,
    resolveRecipient env invoice (with_billing_email b company) w =
    resolveRecipient env invoice company w.
Proof.
  intros Hid Hget. split.
  - unfold resolveRecipient, bind, await, ret, throw. rewrite Hid, Hget. simpl.
    by destruct (truthy (email company)).
  - intros b. unfold resolveRecipient, bind, await, ret, throw. simpl.
    rewrite Hid, Hget. done.
Qed.
End Recipient.

(** C4: with a billing contact id whose contact no longer exists, the
    general e-mail address is chosen although a billing e-mail is
    configured, and without a general address the invoice fails although a
    billing e-mail is configured. *)
Theorem billing_email_skipped :
  resolveRecipient env_ok inv1 acme w0 =
    (Returned ("info@acme.test", "Acme"), ticked 1 w0) /\
  resolveRecipient env_billing_only inv1 acme_billing_only w0 =
    (Threw (JsError "No valid email address found for Acme (Invoice #INV-001)"),
     ticked 1 w0) /\
  (handle env_billing_only "pg" (batch ["i1"]) w0).1 =
    Threw (JsError "No valid email address found for Acme (Invoice #INV-001)") /\
  billing_email acme = Some "billing@acme.test" /\
  billing_email acme_billing_only = Some "billing@acme.test".
Proof. by vm_compute. Qed.

Lemma handle_fail_fast_witness :
  (exists w' d n,
      handle env_ok "pg" (batch ["i1"; "zz"; "i2"]) w0 =
        (Threw (JsError "Failed to get details for Invoice ID zz"), w') /\
      job_log w' = job_log w0 ++ d /\
      upd_status <$> last d = Some Failed /\
      Forall (fun u => upd_status u <> Completed) d /\
      n <= 3 /\
      owners d = (take 1 ["i1"; "zz"; "i2"] ≫= replicate 4) ++ replicate n "zz") /\
  (exists w' d,
      handle env_ok "pg" (batch ["i1"; "i2"]) w0 = (Returned tt, w') /\
      job_log w' = job_log w0 ++ d /\
      upd_status <$> last d = Some Completed /\
      Forall (fun u => upd_status u <> Failed) d).
Proof.
  split.
  - destruct (handle_fail_fast env_ok "pg" (batch ["i1"; "zz"; "i2"]) w0
                eq_refl eq_refl) as [Hfail _].
    eapply (Hfail 1 "zz"); [reflexivity|vm_compute; reflexivity|vm_compute; reflexivity].
  - destruct (handle_fail_fast env_ok "pg" (batch ["i1"; "i2"]) w0
                eq_refl eq_refl) as [_ Hok].
    eapply Hok; [done|vm_compute; reflexivity].
Defined.

(** C2 as stated fails: one successfully processed invoice yields four
    step results, not two. *)
Lemma two_step_results_per_invoice_refuted :
  exists w',
    handle env_ok "pg" (batch ["i1"]) w0 = (Returned tt, w') /\
    length (stepResultsOf (job_log w')) = 4 /\
    length (stepResultsOf (job_log w')) <> 2 * length (invoiceIds (batch ["i1"])).
Proof. eexists. split; [vm_compute; reflexivity|]. split; [reflexivity|simpl; lia]. Qed.

Lemma step_results_on_success_witness :
  exists d,
    job_log (handle env_ok "pg" (batch ["i1"; "i2"]) w0).2 = job_log w0 ++ d /\
    length (stepResultsOf d) = 4 * length (invoiceIds (batch ["i1"; "i2"])) /\
    owners d = invoiceIds (batch ["i1"; "i2"]) ≫= replicate 4 /\
    statuses d =
      invoiceIds (batch ["i1"; "i2"]) ≫=
        (fun _ => [started; completed; started; completed]).
Proof.
  apply (step_results_on_success env_ok "pg" (batch ["i1"; "i2"]) w0).
  vm_compute. reflexivity.
Defined.


(** C5 as stated fails: the company look-up rejects, so does the look-up
    made by the [catch], and the only [Failed] update carries the bare
    message, without the invoice number; and for an invoice that cannot be
    fetched the contextual message carries the invoice id and
    "Unknown Company". *)
Lemma contextual_message_refuted :
  upd_error <$> job_log (handle env_ok "pg" (batch ["zz"]) w0).2 =
    [Some "Failed to process Invoice #zz for Unknown Company: Failed to get details for Invoice ID zz";
     Some "Failed to get details for Invoice ID zz"] /\
  getInvoiceForRendering env_company_down 0 "i1" = Returned (Some inv1) /\
  (handle env_company_down "pg" (batch ["i1"]) w0).1 =
    Threw (JsError "connection refused") /\
  upd_error <$> job_log (handle env_company_down "pg" (batch ["i1"]) w0).2 =
    [Some "connection refused"] /\
  forallb (fun u => negb (includes (get (upd_error u)) (invoice_number inv1)))
    (job_log (handle env_company_down "pg" (batch ["i1"]) w0).2) = true.
Proof. by vm_compute. Qed.

Lemma failure_recorded_and_rethrown_witness :
  exists w',
    handle env_send_false "pg" (batch ["i1"; "i2"]) w0 =
      (Threw (JsError "Failed to send invoice email"), w') /\
    upd_error <$> drop 3 (job_log w') =
      [Some "Failed to process Invoice #INV-001 for Acme: Failed to send invoice email";
       Some "Failed to send invoice email"].
Proof.
  destruct (failure_recorded_and_rethrown env_send_false "pg"
              (batch ["i1"; "i2"]) w0 0 "i1" w0
              (JsError "Failed to send invoice email")
              (processBody env_send_false "pg" (batch ["i1"; "i2"]) 0 "i1" w0).2
              (Some inv1) (Some acme))
    as [(w' & Hrun & Hlog) _]; try (vm_compute; reflexivity).
  exists w'. split; [exact Hrun|]. rewrite Hlog. vm_compute. reflexivity.
Defined.

Lemma dangling_billing_contact_witness :
  resolveRecipient env_ok inv1 acme w0 =
    (Returned ("info@acme.test", "Acme"), ticked 1 w0) /\
  forall b,
    resolveRecipient env_ok inv1 (with_billing_email b acme) w0 =
    resolveRecipient env_ok inv1 acme w0.
Proof.
  apply (dangling_billing_contact env_ok inv1 acme w0); reflexivity.
Defined.

End HandlerFacts.

Module BillingFacts.
Import Billing BillingExamples JsFacts.

Lemma collect_rejected {A B} (f : A -> result (list B)) l x :
  In x l -> isRejected (f x) = true -> isRejected (collect f l) = true.
Proof.
  induction l as [|a l IH]; simpl; [done|].
  intros [->|Hin] Hx.
  - by destruct (f x).
  - destruct (f a); simpl; [|done].
    specialize (IH Hin Hx). by destruct (collect f l).
Qed.

Lemma planItems_missing_rate db companyId s e plan ps :
  missingRequiredRate db companyId s e plan ps ->
  isRejected (planItems db companyId s e plan) = true.
Proof.
  intros [Hin Hmiss]. unfold planItems.
  destruct (plan_type plan); [| | |done].
  - unfold fixedItems. apply (collect_rejected _ _ ps); [done|]. by rewrite Hmiss.
  - destruct Hmiss as [Hent Hrate]. unfold hourlyItems.
    apply (collect_rejected _ _ ps); [done|].
    destruct (approvedEntries db companyId (ps_service_id ps) s e); [done|].
    by rewrite Hrate.
  - destruct Hmiss as [Hrec Hrate]. unfold usageItems.
    apply (collect_rejected _ _ ps); [done|].
    destruct (usageRecords db companyId (ps_service_id ps) s e) as [|ur l]; [done|].
    simpl. by rewrite Hrate.
Qed.

(** C6: [generateInvoice] rejects a period whose start is not before its
    end with the validation message; rejects, naming the company, when no
    plan of the company is active in the period; and rejects when an active
    plan needs a rate that is undefined. *)
Theorem generateInvoice_rejections db companyId s e :
  ((e <= s)%Z ->
     generateInvoice db companyId s e =
     Rejected (ValidationError
                 "Invalid billing period: start date must be before end date")) /\
  ((s < e)%Z -> activePlans db companyId s e = [] ->
     exists msg,
       generateInvoice db companyId s e = Rejected (ComputationError msg) /\
       includes msg "No active billing plans found" = true /\
       includes msg companyId = true) /\
  ((s < e)%Z -> forall plan ps,
     In plan (activePlans db companyId s e) ->
     missingRequiredRate db companyId s e plan ps ->
     isRejected (generateInvoice db companyId s e) = true).
Proof.
  unfold generateInvoice. split_and!.
  - intros Hle. by rewrite (proj2 (Z.leb_le e s) Hle).
  - intros Hlt Hnone. rewrite (proj2 (Z.leb_gt e s) Hlt), Hnone.
    eexists. split; [done|]. split; [done|].
    apply includes_middle.
  - intros Hlt plan ps Hin Hmiss. rewrite (proj2 (Z.leb_gt e s) Hlt).
    pose proof (collect_rejected (planItems db companyId s e) _ plan Hin
                  (planItems_missing_rate _ _ _ _ _ _ Hmiss)) as Hrej.
    destruct (activePlans db companyId s e) as [|p l]; [done|].
    by destruct (collect _ (p :: l)).
Qed.

Lemma itemsOf_fresh (old : list (nat * InvoiceLineItem)) id items :
  Forall (fun p => fst p < id) old ->
  snd <$> List.filter (fun p => Nat.eqb (fst p) id)
            (old ++ ((fun it => (id, it)) <$> items)) = items.
Proof.
  intros Hold. rewrite List.filter_app, fmap_app.
  assert (List.filter (fun p => Nat.eqb (fst p) id) old = []) as ->.
  { induction Hold as [|p old Hp _ IH]; [done|]. simpl.
    rewrite (proj2 (Nat.eqb_neq (fst p) id)) by lia. done. }
  simpl. induction items as [|it items IH]; [done|].
  simpl. rewrite Nat.eqb_refl. simpl. by f_equal.
Qed.


Lemma overage_positive bu :
  (0 < overage bu)%Q -> hasOverage bu = true.
Proof.
  intros H. unfold hasOverage.
  destruct (Qle_bool (overage bu) 0) eqn:Hle; [|done].
  apply Qle_bool_iff in Hle. exfalso. by apply (Qlt_not_le _ _ H).
Qed.

Lemma overage_zero bu :
  (overage bu == 0)%Q -> hasOverage bu = false.
Proof.
  intros H. unfold hasOverage.
  assert (Qle_bool (overage bu) 0 = true) as ->; [|done].
  apply Qle_bool_iff. rewrite H. apply Qle_refl.
Qed.

Lemma bucketRows_overlapping db companyId s e plan :
  bucketRows db companyId s e plan =
  filter (fun row => bu_company_id row = companyId /\
                     bu_plan_id row = plan_id plan /\
                     (period_start row < e)%Z /\ (s <= period_end row)%Z)
         (bucket_usage db).
Proof.
  unfold bucketRows, overlaps.
  induction (bucket_usage db) as [|row rows IH]; [done|].
  rewrite filter_cons. simpl. rewrite IH.
  destruct (String.eqb_spec (bu_company_id row) companyId);
    destruct (String.eqb_spec (bu_plan_id row) (plan_id plan));
    destruct (Z.ltb_spec (period_start row) e);
    destruct (Z.leb_spec s (period_end row));
    simpl; case_decide; try done; naive_solver lia.
Qed.

(** C8: a bucket-usage row whose overage is positive yields exactly one
    line item, described by the service name followed by "(Overage)", whose
    quantity is the overage hours and whose unit price is the overage rate;
    a row whose overage is zero yields no line item; the rows that a Bucket
    plan bills are the bucket-usage rows of the company and of the plan
    whose period overlaps the billing period, each once and in table
    order; and the invoice generated for a company whose one active plan is
    a Bucket plan carries exactly the line items of these rows. *)
Theorem bucket_overage db bu :
  ((0 < overage bu)%Q ->
     exists it,
       bucketRowItems db bu = [it] /\
       description it = nameOf (findService db (bu_service_id bu)) +:+ " (Overage)" /\
       quantity it = overage bu /\
       (quantity it == hours_used bu - total_hours bu)%Q /\
       unit_price it = overage_rate bu /\
       net_amount it = (overage bu * overage_rate bu)%Q) /\
  ((overage bu == 0)%Q -> bucketRowItems db bu = []) /\
  (forall companyId s e plan,
     plan_type plan = Bucket ->
     planItems db companyId s e plan =
     Ok (flat_map (bucketRowItems db)
           (filter (fun row => bu_company_id row = companyId /\
                               bu_plan_id row = plan_id plan /\
                               (period_start row < e)%Z /\ (s <= period_end row)%Z)
                   (bucket_usage db)))) /\
  (forall companyId s e plan,
     wellFormed db -> (s < e)%Z ->
     activePlans db companyId s e = [plan] ->
     plan_type plan = Bucket ->
     exists inv db',
       generateInvoice db companyId s e = Ok (inv, db') /\
       itemsOf db' (invoice_id inv) =
       flat_map (bucketRowItems db)
         (filter (fun row => bu_company_id row = companyId /\
                             bu_plan_id row = plan_id plan /\
                             (period_start row < e)%Z /\ (s <= period_end row)%Z)
                 (bucket_usage db))).
Proof.
  split_and!.
  - intros Hpos. unfold bucketRowItems. rewrite (overage_positive _ Hpos).
    eexists. split; [done|]. simpl. split_and!; try done.
    unfold overage in *. apply Q.max_r.
    destruct (Qlt_le_dec (hours_used bu - total_hours bu) 0) as [Hneg|]; [|done].
    exfalso. rewrite Q.max_l in Hpos by (by apply Qlt_le_weak).
    by apply (Qlt_irrefl 0).
  - intros Hz. unfold bucketRowItems. by rewrite (overage_zero _ Hz).
  - intros companyId s e plan Hty. unfold planItems, bucketItems.
    by rewrite Hty, bucketRows_overlapping.
  - intros companyId s e plan Hwf Hlt Hact Hty. unfold generateInvoice.
    rewrite (proj2 (Z.leb_gt e s) Hlt), Hact. simpl.
    unfold planItems, bucketItems. rewrite Hty, bucketRows_overlapping. simpl.
    eexists _, _. split; [done|].
    unfold itemsOf. simpl. rewrite itemsOf_fresh by done. apply app_nil_r.
Qed.

Lemma perform_generate_keeps db c s e id inv :
  invoices db !! id = Some inv ->
  invoices (perform db (Generate c s e)) !! id = Some inv.
Proof.
  intros Hid. simpl. unfold generateInvoice.
  destruct (e <=? s)%Z; [done|].
  destruct (activePlans db c s e) as [|p l]; [done|].
  destruct (collect _ (p :: l)) as [items|]; [|done].
  simpl. by apply lookup_app_l_Some.
Qed.

Lemma perform_finalize_other db j now id inv :
  j <> id ->
  invoices db !! id = Some inv ->
  invoices (perform db (Finalize j now)) !! id = Some inv.
Proof.
  intros Hne Hid. simpl. unfold finalizeInvoice.
  destruct (invoices db !! j) as [invj|]; [|done].
  destruct (status invj); try done.
  simpl. by rewrite list_lookup_insert_ne.
Qed.

(** C9: finalizing an existing draft invoice returns it with status [sent]
    and [finalized_at] set, and writes it back; finalizing an invoice that
    is not a draft, or an identifier that does not exist, is rejected; and
    any action other than finalizing that invoice leaves a draft as it
    is. *)
Theorem finalizeInvoice_transitions db id now :
  (forall inv,
     invoices db !! id = Some inv -> status inv = draft ->
     exists inv' db',
       finalizeInvoice db id now = Ok (inv', db') /\
       status inv' = sent /\
       finalized_at inv' = Some now /\
       invoice_id inv' = invoice_id inv /\
       invoices db' !! id = Some inv') /\
  (forall inv,
     invoices db !! id = Some inv -> status inv <> draft ->
     isRejected (finalizeInvoice db id now) = true) /\
  (invoices db !! id = None ->
     isRejected (finalizeInvoice db id now) = true) /\
  (forall inv a,
     invoices db !! id = Some inv -> status inv = draft ->
     (forall t, a <> Finalize id t) ->
     invoices (perform db a) !! id = Some inv).
Proof.
  split_and!.
  - intros inv Hid Hst. unfold finalizeInvoice. rewrite Hid, Hst.
    eexists _, _. split; [done|]. simpl. split_and!; try done.
    apply list_lookup_insert_eq. by eapply lookup_lt_Some.
  - intros inv Hid Hst. unfold finalizeInvoice. rewrite Hid.
    by destruct (status inv).
  - intros Hid. unfold finalizeInvoice. by rewrite Hid.
  - intros inv [c s e|j t] Hid Hst Hother.
    + by apply perform_generate_keeps.
    + apply perform_finalize_other; [|done]. intros ->. by apply (Hother t).
Qed.

Lemma generateInvoice_rejections_witness :
  generateInvoice taxableDb "co1" feb1 jan1 =
    Rejected (ValidationError
                "Invalid billing period: start date must be before end date") /\
  (exists msg,
      generateInvoice taxableDb "co2" jan1 feb1 = Rejected (ComputationError msg) /\
      includes msg "No active billing plans found" = true /\
      includes msg "co2" = true) /\
  isRejected (generateInvoice noRateDb "co1" jan1 feb1) = true.
Proof.
  destruct (generateInvoice_rejections taxableDb "co1" feb1 jan1) as (Hperiod & _ & _).
  destruct (generateInvoice_rejections taxableDb "co2" jan1 feb1) as (_ & Hplans & _).
  destruct (generateInvoice_rejections noRateDb "co1" jan1 feb1) as (_ & _ & Hrate).
  split_and!.
  - apply Hperiod. by vm_compute.
  - apply Hplans; by vm_compute.
  - apply (Hrate eq_refl
             {| plan_id := "p1"; plan_name := "Invalid Plan"; plan_type := Fixed |}
             {| ps_plan_id := "p1"; ps_service_id := "s1";
                ps_quantity := None; custom_rate := None |}).
    + vm_compute. by left.
    + split; [vm_compute; by left|reflexivity].
Defined.


Lemma bucket_overage_witness :
  (exists it,
      bucketRowItems bucketDb over5 = [it] /\
      description it = "Consulting Hours (Overage)" /\
      (quantity it == 5)%Q /\ unit_price it = 7500%Q /\
      (net_amount it == 37500)%Q) /\
  bucketRowItems bucketDb within = [] /\
  planItems (bucketDbWith [over5_december; over5; within; over5_elsewhere; over5])
    "co1" jan1 feb1 bucketPlan =
    Ok [lineItem "Consulting Hours (Overage)" 5 7500;
        lineItem "Consulting Hours (Overage)" 5 7500] /\
  (exists inv db',
      generateInvoice bucketDb "co1" jan1 feb1 = Ok (inv, db') /\
      itemsOf db' (invoice_id inv) = [lineItem "Consulting Hours (Overage)" 5 7500] /\
      (subtotal inv == 37500)%Q) /\
  (exists inv db',
      generateInvoice (bucketDbWith [within; over5_elsewhere; over5_december])
        "co1" jan1 feb1 = Ok (inv, db') /\
      itemsOf db' (invoice_id inv) = []).
Proof.
  destruct (bucket_overage bucketDb over5) as (Hover & _ & _ & Hgen).
  destruct (bucket_overage bucketDb within) as (_ & Hnone & _).
  destruct (bucket_overage
              (bucketDbWith [over5_december; over5; within; over5_elsewhere; over5])
              over5) as (_ & _ & Hplan & _).
  destruct (bucket_overage (bucketDbWith [within; over5_elsewhere; over5_december])
              within) as (_ & _ & _ & Hgen0).
  split_and!.
  - destruct Hover as (it & Hit & Hd & Hq & _ & Hu & Hn); [by vm_compute|].
    exists it. rewrite Hd, Hq, Hu, Hn. by vm_compute.
  - by apply Hnone.
  - rewrite (Hplan "co1" jan1 feb1 bucketPlan eq_refl). vm_compute. reflexivity.
  - destruct (Hgen "co1" jan1 feb1 bucketPlan) as (inv & db' & Hrun & Hitems);
      [constructor|reflexivity|vm_compute; reflexivity|reflexivity|].
    exists inv, db'. split; [exact Hrun|]. split.
    + rewrite Hitems. vm_compute. reflexivity.
    + vm_compute in Hrun. injection Hrun as <- _. by vm_compute.
  - destruct (Hgen0 "co1" jan1 feb1 bucketPlan) as (inv & db' & Hrun & Hitems);
      [constructor|reflexivity|vm_compute; reflexivity|reflexivity|].
    exists inv, db'. split; [exact Hrun|]. rewrite Hitems. vm_compute. reflexivity.
Defined.

Lemma finalizeInvoice_transitions_witness :
  (exists inv' db',
      finalizeInvoice draftedDb 0 feb1 = Ok (inv', db') /\
      status inv' = sent /\ finalized_at inv' = Some feb1) /\
  isRejected (finalizeInvoice sentDb 0 feb1) = true /\
  isRejected (finalizeInvoice draftedDb 7 feb1) = true /\
  (status <$> invoices (perform draftedDb (Generate "co1" jan1 feb1)) !! 0) = Some draft.
Proof.
  destruct (finalizeInvoice_transitions draftedDb 0 feb1) as (Hdraft & _ & _ & Hkeep).
  destruct (finalizeInvoice_transitions sentDb 0 feb1) as (_ & Hsent & _ & _).
  destruct (finalizeInvoice_transitions draftedDb 7 feb1) as (_ & _ & Hnone & _).
  split_and!.
  - destruct (Hdraft _ eq_refl eq_refl) as (inv' & db' & Hf & Hs & Ht & _).
    by exists inv', db'.
  - by apply (Hsent _ eq_refl).
  - by apply Hnone.
  - by rewrite (Hkeep _ (Generate "co1" jan1 feb1) eq_refl eq_refl).
Defined.

End BillingFacts.

Module HandlerMore.
Import InvoiceEmailHandler HandlerSpec HandlerTerms HandlerExamples MoreExamples HandlerFacts.

Ltac run :=
  unfold step_type in *;
  unfold bind, try_catch, try_finally, await, now, updateJobStatus,
    writeFile, unlink, ret, throw in *;
  repeat (simpl in *; simplify_map_eq; try case_match).

Section Batch.

Variable env : Collaborators.
Variable pgBossJobId : string.
Variable data : InvoiceEmailJobData.

Abbreviation stepUpdate := (stepUpdate pgBossJobId data).
Abbreviation failedUpdate := (failedUpdate pgBossJobId data).
Abbreviation completedUpdate := (completedUpdate pgBossJobId data).
Abbreviation forEachInvoice := (forEachInvoice env pgBossJobId data).
Abbreviation processInvoice := (processInvoice env pgBossJobId data).
Abbreviation processBody := (processBody env pgBossJobId data).
Abbreviation handle := (handle env pgBossJobId data).

(** [handle] refuses a job without job-service id, without tenant or without
    invoice ids before it records anything: the error is raised and the
    world is left as it was. *)
Theorem handle_rejects_invalid_job w :
  (truthy_string (jobServiceId data) = false ->
     handle w = (Threw (JsError "jobServiceId is required in job data"), w)) /\
  (truthy_string (jobServiceId data) = true ->
   truthy_string (tenantId data) = false ->
     handle w = (Threw (JsError "Tenant ID is required"), w)) /\
  (truthy_string (jobServiceId data) = true ->
   truthy_string (tenantId data) = true ->
   invoiceIds data = [] ->
     handle w = (Threw (JsError "No invoice IDs provided"), w)).
Proof.
  unfold InvoiceEmailHandler.handle, throw. split_and!.
  - by intros ->.
  - by intros -> ->.
  - by intros -> -> ->.
Qed.

(** When the [try] block of invoice [k] raises and the look-up of the
    invoice or of its company repeated by the [catch] raises [e'], it is
    [e'] that reaches the caller, and the only [Failed] update carries the
    message of [e']: the original error is recorded nowhere. *)
Theorem refetch_failure_masks_error w k id wk e w1 e' :
  truthy_string (jobServiceId data) = true ->
  truthy_string (tenantId data) = true ->
  invoiceIds data !! k = Some id ->
  forEachInvoice 0 (take k (invoiceIds data)) w = (Returned tt, wk) ->
  processBody k id wk = (Threw e, w1) ->
  getInvoiceForRendering env (tick w1) id = Threw e' \/
  (exists inv, getInvoiceForRendering env (tick w1) id = Returned (Some inv) /\
               getCompanyById env (S (tick w1)) (company_id inv) = Threw e') ->
  exists w',
    handle w = (Threw e', w') /\
    job_log w' = job_log w1 ++ [failedUpdate (errorMessage e')].
Proof.
  intros Hj Ht Hk Hpre Hbody Hre.
  assert (exists n, processInvoice k id wk = (Threw e', ticked n w1)) as [n Hp].
  { unfold InvoiceEmailHandler.processInvoice, try_catch. rewrite Hbody.
    unfold reportFailure, bind, await.
    destruct Hre as [Hinv|(inv & Hinv & Hcom)]; rewrite Hinv; simpl.
    - by exists 1.
    - rewrite Hcom. by exists 2. }
  pose proof (forEachInvoice_fails_at _ _ _ _ _ _ _ _ _ Hk Hpre Hp) as Hloop.
  rewrite handle_runBatch by (try done; intros Hnil; by rewrite Hnil in Hk).
  rewrite (runBatch_threw _ _ _ _ _ _ Hloop). by eexists.
Qed.

(** A delivered invoice adds exactly four updates to the job history: the
    PDF step started and completed (with the file id the renderer returned),
    then the e-mail step started and completed (with the recipient); the
    step names are the types of the job steps at positions [2i] and
    [2i+1]. *)
Theorem processBody_report i id w w' :
  processBody i id w = (Returned tt, w') ->
  exists invoice company fid pdfStep emailStep rcpt name,
    steps data !! (i * 2) = Some pdfStep /\
    steps data !! (i * 2 + 1) = Some emailStep /\
    getInvoiceForRendering env (tick w) id = Returned (Some invoice) /\
    getCompanyById env (S (tick w)) (company_id invoice) = Returned (Some company) /\
    generateAndStore env (S (S (tick w))) id (invoice_number invoice) 1 = Returned fid /\
    job_log w' = job_log w ++
      (stepUpdate <$> deliveredReport id pdfStep emailStep invoice company fid rcpt name).
Proof.
  unfold InvoiceEmailHandler.processBody, fetchDetails, generatePdf, resolveRecipient,
    sendEmail.
  intros H. run.
  all: eexists _, _, _, _, _, _, _; split_and!; try done;
    simpl; rewrite <- ?app_assoc; reflexivity.
Qed.

(** When the job carries no step at position [2i], the [try] block of
    invoice [i] raises without reporting anything, without writing a file
    and after the two look-ups at most: no PDF is requested. *)
Theorem missing_pdf_step i id w :
  steps data !! (i * 2) = None ->
  exists e w',
    processBody i id w = (Threw e, w') /\
    job_log w' = job_log w /\ fs w' = fs w /\ fs_written w' = fs_written w /\
    tick w' <= 2 + tick w.
Proof.
  intros Hstep.
  unfold InvoiceEmailHandler.processBody, fetchDetails, generatePdf. rewrite Hstep.
  run; eexists _, _; (split; [reflexivity|]); simpl; split_and!; try done; lia.
Qed.

Lemma processInvoice_returned i id w w' :
  processInvoice i id w = (Returned tt, w') ->
  processBody i id w = (Returned tt, w').
Proof.
  unfold InvoiceEmailHandler.processInvoice, try_catch.
  destruct (processBody i id w) as [[[]|e] w1]; [done|].
  pose proof (reportFailure_spec env pgBossJobId data id e w1) as Hr.
  by destruct (reportFailure _ _ _ _ _ w1) as [[?|e'] w2].
Qed.

Lemma sendEmail_needs_step id invoice company fid rcpt name w :
  exists e, sendEmail env pgBossJobId data id None invoice company fid rcpt name w
            = (Threw e, w).
Proof. by eexists. Qed.

Lemma processBody_needs_email_step i id w w' :
  processBody i id w = (Returned tt, w') ->
  is_Some (steps data !! (i * 2 + 1)).
Proof.
  destruct (steps data !! (i * 2 + 1)) as [st|] eqn:Hstep; [by eexists|].
  unfold InvoiceEmailHandler.processBody, bind. rewrite Hstep.
  destruct (fetchDetails env id w) as [[[invoice company]|e] w1]; [|done].
  destruct (generatePdf _ _ _ _ _ _ _ w1) as [[fid|e] w2]; [|done].
  destruct (resolveRecipient env invoice company w2) as [[[rcpt name]|e] w3]; [|done].
  by destruct (sendEmail_needs_step id invoice company fid rcpt name w3) as [e ->].
Qed.

Lemma forEachInvoice_steps ids i w w' :
  forEachInvoice i ids w = (Returned tt, w') ->
  forall j, j < length ids -> is_Some (steps data !! ((i + j) * 2 + 1)).
Proof.
  revert i w. induction ids as [|id ids IH]; intros i w; simpl; [intros; lia|].
  unfold bind. destruct (processInvoice i id w) as [[[]|e] w1] eqn:Hp; [|done].
  intros Hrest [|j] Hj.
  - apply processInvoice_returned, processBody_needs_email_step in Hp.
    by rewrite Nat.add_0_r.
  - replace (i + S j) with (S i + j) by lia. apply (IH _ _ Hrest). lia.
Qed.

(** A job completes only if it carries two steps for every invoice: when
    [handle] returns, the steps array has at least twice as many entries as
    there are invoice ids. *)
Theorem completed_job_has_steps w w' :
  handle w = (Returned tt, w') ->
  2 * length (invoiceIds data) <= length (steps data).
Proof.
  unfold InvoiceEmailHandler.handle, throw.
  destruct (truthy_string (jobServiceId data)); [|done].
  destruct (truthy_string (tenantId data)); [|done]. simpl.
  destruct (invoiceIds data) as [|id0 ids0] eqn:Hids; [done|]. rewrite <- Hids.
  destruct (forEachInvoice 0 (invoiceIds data) w) as [[[]|e] w1] eqn:Hloop.
  2: { by rewrite (runBatch_threw _ _ _ _ _ _ Hloop). }
  intros _.
  destruct (forEachInvoice_steps _ _ _ _ Hloop (length (invoiceIds data) - 1))
    as [st Hst]; [rewrite Hids; simpl; lia|].
  apply lookup_lt_Some in Hst. rewrite Hids in *. simpl in *. lia.
Qed.

(** An unsuccessful send (the file was written and the mail service answers
    [false]) is a failure like a rejection: the e-mail step is reported as
    started only, the error is "Failed to send invoice email", and the
    temporary file is gone. *)
Theorem unsuccessful_send id st invoice company fid rcpt name buffer w :
  downloadFile env (tick w) fid = Returned buffer ->
  fs_writeFile env (S (S (tick w)))
    (tempPathOf invoice (Date_now env (S (tick w)))) buffer = WriteResolved ->
  sendInvoiceEmail env (S (S (S (tick w))))
    (emailPayload data invoice company rcpt name)
    (tempPathOf invoice (Date_now env (S (tick w)))) = Returned false ->
  sendEmail env pgBossJobId data id (Some st) invoice company fid rcpt name w =
    (Threw (JsError "Failed to send invoice email"),
     {| job_log := job_log w ++
          [stepUpdate
             {| step := type st; status := started; invoiceId := id;
                file_id := None; recipientEmail := None;
                details := "Sending Invoice #" +:+ invoice_number invoice +:+ " to "
                           +:+ name +:+ " (" +:+ rcpt +:+ ") at "
                           +:+ company_name company |}];
        fs := delete (tempPathOf invoice (Date_now env (S (tick w)))) (fs w);
        fs_written := fs_written w ++ [tempPathOf invoice (Date_now env (S (tick w)))];
        tick := 4 + tick w |}).
Proof.
  intros Hdl Hwr Hsend. unfold sendEmail, emailPayload, tempPathOf in *.
  unfold step_type, bind, try_finally, await, now, updateJobStatus, writeFile,
    unlink, ret, throw. simpl.
  rewrite Hdl. simpl. rewrite Hwr. simpl. rewrite Hsend. simpl.
  rewrite lookup_insert_eq. by rewrite delete_insert_eq.
Qed.

(** When [fs.writeFile] rejects, its error ends the e-mail step after the
    download, the time stamp and the write: the mail service is not
    called, nothing is unlinked, and a file that the rejected write had
    created stays where it is. *)
Theorem rejected_write_skips_cleanup id st invoice company fid rcpt name buffer e part w :
  downloadFile env (tick w) fid = Returned buffer ->
  fs_writeFile env (S (S (tick w)))
    (tempPathOf invoice (Date_now env (S (tick w)))) buffer = WriteRejected e part ->
  sendEmail env pgBossJobId data id (Some st) invoice company fid rcpt name w =
    (Threw e,
     {| job_log := job_log w ++
          [stepUpdate
             {| step := type st; status := started; invoiceId := id;
                file_id := None; recipientEmail := None;
                details := "Sending Invoice #" +:+ invoice_number invoice +:+ " to "
                           +:+ name +:+ " (" +:+ rcpt +:+ ") at "
                           +:+ company_name company |}];
        fs := match part with
              | Some c => <[tempPathOf invoice (Date_now env (S (tick w))) := c]> (fs w)
              | None => fs w
              end;
        fs_written := fs_written w;
        tick := 3 + tick w |}).
Proof.
  intros Hdl Hwr. unfold sendEmail, tempPathOf in *.
  unfold step_type, bind, try_finally, await, now, updateJobStatus, writeFile,
    unlink, ret, throw. simpl.
  rewrite Hdl. simpl. rewrite Hwr. by destruct part.
Qed.

Lemma forEachInvoice_evolves ids i w :
  exists d ps ls,
    evolves w (forEachInvoice i ids w).2 d ps ls /\
    match (forEachInvoice i ids w).1 with
    | Returned _ => ls = []
    | Threw _ => leftover env ls
    end.
Proof.
  revert i w. induction ids as [|id ids IH]; intros i w; simpl.
  - exists [], [], []. split; [apply evolves_refl|done].
  - unfold bind. pose proof (processInvoice_spec env pgBossJobId data i id w) as Hp.
    destruct (processInvoice i id w) as [[[]|e] w1].
    + destruct Hp as (d1 & ps1 & Hev1 & _).
      destruct (IH (S i) w1) as (d2 & ps2 & ls2 & Hev2 & Hls).
      exists (d1 ++ d2), (ps1 ++ ps2), ([] ++ ls2).
      split; [by eapply evolves_trans|done].
    + destruct Hp as (d1 & f & ps1 & ls1 & Hev1 & _ & _ & _ & _ & Hleft).
      by eexists _, _, _.
Qed.

Lemma updateJobStatus_evolves u w :
  evolves w (updateJobStatus u w).2 [u] [] [].
Proof.
  split; simpl; rewrite ?app_nil_r; try done; by intros p ?%elem_of_nil.
Qed.

Lemma handle_evolves w :
  exists d ps ls,
    evolves w (handle w).2 d ps ls /\
    match (handle w).1 with
    | Returned _ => ls = []
    | Threw _ => leftover env ls
    end.
Proof.
  unfold InvoiceEmailHandler.handle, throw.
  destruct (truthy_string (jobServiceId data)); simpl;
    [|exists [], [], []; split; [apply evolves_refl|by left]].
  destruct (truthy_string (tenantId data)); simpl;
    [|exists [], [], []; split; [apply evolves_refl|by left]].
  destruct (invoiceIds data) as [|id0 ids0] eqn:Hids;
    [exists [], [], []; split; [apply evolves_refl|by left]|].
  destruct (forEachInvoice_evolves (invoiceIds data) 0 w) as (d & ps & ls & Hev & Hls).
  unfold runBatch, try_catch, bind.
  destruct (forEachInvoice 0 (invoiceIds data) w) as [[[]|e] w1]; simpl in *.
  - eexists (d ++ [_]), (ps ++ []), (ls ++ []).
    split; [|by rewrite app_nil_r]. eapply evolves_trans; [done|].
    apply (updateJobStatus_evolves _ w1).
  - eexists (d ++ [_]), (ps ++ []), (ls ++ []).
    split; [|by rewrite app_nil_r]. eapply evolves_trans; [done|].
    apply (updateJobStatus_evolves _ w1).
Qed.

(** After [handle], whatever its outcome, every temporary file whose write
    resolved is absent (even if a file was there before) and no other file
    was created, changed or removed, save at the paths [ls]: there is none
    when [handle] returns, and when it raises there is at most the one path
    of a [fs.writeFile] that rejected having created the file. *)
Theorem handle_file_system w :
  exists ps ls,
    fs_written (handle w).2 = fs_written w ++ ps /\
    (forall p, p ∉ ls ->
       fs (handle w).2 !! p = if decide (p ∈ ps) then None else fs w !! p) /\
    match (handle w).1 with
    | Returned _ => ls = []
    | Threw _ => leftover env ls
    end.
Proof.
  destruct (handle_evolves w) as (d & ps & ls & [_ Hw Hrem Hfr] & Hls).
  exists ps, ls. split_and!; [done| |done]. intros p Hp. case_decide; auto.
Qed.

Lemma stepOf_progress id d : Forall (stepOf id) d -> Forall progress d.
Proof.
  intros Hd. eapply Forall_impl; [done|]. intros u [Hs Hr].
  split; [done|]. by destruct (upd_stepResult u).
Qed.

Lemma batchReport_progress ids d : batchReport ids d -> Forall progress d.
Proof.
  induction 1 as [|id ids d1 d [Hd1 _] _ IH]; [done|].
  apply Forall_app. split; [by eapply stepOf_progress|done].
Qed.

(** The history that [handle] adds for a well-formed job is a run of step
    reports followed by the updates that end the job, and nothing is
    reported after these: one [Completed] update when it returns; when it
    raises [e], one [Failed] update with the message of [e], preceded by at
    most one other [Failed] update. *)
Theorem handle_history_shape w :
  truthy_string (jobServiceId data) = true ->
  truthy_string (tenantId data) = true ->
  invoiceIds data <> [] ->
  exists reports ending,
    job_log (handle w).2 = job_log w ++ reports ++ ending /\
    Forall progress reports /\
    match (handle w).1 with
    | Returned _ => exists msg, ending = [completedUpdate msg]
    | Threw e =>
        ending = [failedUpdate (errorMessage e)] \/
        exists msg, ending = [failedUpdate msg; failedUpdate (errorMessage e)]
    end.
Proof.
  intros Hj Ht Hids. rewrite handle_runBatch by done.
  destruct (forEachInvoice 0 (invoiceIds data) w) as [[[]|e] w1] eqn:Hloop.
  - rewrite (runBatch_returned _ _ _ _ _ Hloop). simpl.
    destruct (forEachInvoice_returned _ _ _ _ _ _ _ Hloop) as (d & ps & Hev & Hb).
    exists d, [completedUpdate ("Successfully processed "
                 +:+ pretty (length (invoiceIds data)) +:+ " invoice(s)")].
    split_and!; [by rewrite (ev_log _ _ _ _ _ Hev), <- app_assoc| |by eexists].
    by eapply batchReport_progress.
  - rewrite (runBatch_threw _ _ _ _ _ _ Hloop). simpl.
    destruct (forEachInvoice_threw _ _ _ _ _ _ _ _ Hloop) as (k & id & wk & Hk & Hpre & Hfail).
    destruct (forEachInvoice_returned _ _ _ _ _ _ _ Hpre) as (d0 & ps0 & Hev0 & Hb0).
    pose proof (processInvoice_spec env pgBossJobId data (0 + k) id wk) as Hp.
    rewrite Hfail in Hp. destruct Hp as (dk & f & ps & ls & Hev & Hdk & _ & Hf & _).
    exists (d0 ++ dk), (f ++ [failedUpdate (errorMessage e)]).
    split_and!.
    + rewrite (ev_log _ _ _ _ _ Hev), (ev_log _ _ _ _ _ Hev0). by rewrite <- !app_assoc.
    + apply Forall_app. split; [by eapply batchReport_progress|by eapply stepOf_progress].
    + destruct Hf as [->|[msg ->]]; [by left|right; by exists msg].
Qed.

(** When the configured billing contact is found, its e-mail address is the
    recipient and the company's billing and general addresses are not
    consulted: a contact without address makes the invoice fail whatever
    addresses the company has. *)
Theorem contact_is_authoritative invoice company c w :
  truthy (billing_contact_id company) = true ->
  ContactModel_get env (tick w) (get (billing_contact_id company)) = Returned (Some c) ->
  resolveRecipient env invoice company w =
    ((if truthy (contact_email c)
      then Returned (get (contact_email c), full_name c)
      else Threw (JsError ("No valid email address found for "
                           +:+ company_name company +:+ " (Invoice #"
                           +:+ invoice_number invoice +:+ ")"))),
     ticked 1 w).
Proof.
  intros Hid Hget. unfold resolveRecipient, bind, await, ret, throw.
  rewrite Hid, Hget. simpl. by destruct (truthy (contact_email c)).
Qed.

End Batch.

Lemma handle_rejects_invalid_job_witness :
  handle env_ok "pg" (mkJobData "" "tenant-1" ["i1"] []) w0 =
    (Threw (JsError "jobServiceId is required in job data"), w0) /\
  handle env_ok "pg" (mkJobData "job-1" "" ["i1"] []) w0 =
    (Threw (JsError "Tenant ID is required"), w0) /\
  handle env_ok "pg" (mkJobData "job-1" "tenant-1" [] []) w0 =
    (Threw (JsError "No invoice IDs provided"), w0).
Proof.
  destruct (handle_rejects_invalid_job env_ok "pg" (mkJobData "" "tenant-1" ["i1"] []) w0)
    as (H1 & _ & _).
  destruct (handle_rejects_invalid_job env_ok "pg" (mkJobData "job-1" "" ["i1"] []) w0)
    as (_ & H2 & _).
  destruct (handle_rejects_invalid_job env_ok "pg" (mkJobData "job-1" "tenant-1" [] []) w0)
    as (_ & _ & H3).
  split_and!; [by apply H1|by apply H2|by apply H3].
Defined.

Lemma refetch_failure_masks_error_witness :
  exists w',
    handle env_company_down "pg" (batch ["i1"; "i2"]) w0 =
      (Threw (JsError "connection refused"), w') /\
    upd_error <$> job_log w' = [Some "connection refused"].
Proof.
  destruct (refetch_failure_masks_error env_company_down "pg" (batch ["i1"; "i2"])
              w0 0 "i1" w0 (JsError "connection refused")
              (processBody env_company_down "pg" (batch ["i1"; "i2"]) 0 "i1" w0).2
              (JsError "connection refused"))
    as (w' & Hrun & Hlog); try (vm_compute; reflexivity).
  - right. exists inv1. split; vm_compute; reflexivity.
  - exists w'. split; [exact Hrun|]. rewrite Hlog. vm_compute. reflexivity.
Defined.

Lemma processBody_report_witness :
  exists invoice company fid pdfStep emailStep rcpt name,
    job_log (processBody env_ok "pg" (batch ["i1"]) 0 "i1" w0).2 =
      job_log w0 ++
      (stepUpdate "pg" (batch ["i1"])
         <$> deliveredReport "i1" pdfStep emailStep invoice company fid rcpt name) /\
    fid = "file-i1".
Proof.
  destruct (processBody_report env_ok "pg" (batch ["i1"]) 0 "i1" w0
              (processBody env_ok "pg" (batch ["i1"]) 0 "i1" w0).2)
    as (invoice & company & fid & pdfStep & emailStep & rcpt & name & _ & _ & _ & _ & Hfid & Hlog);
    [vm_compute; reflexivity|].
  exists invoice, company, fid, pdfStep, emailStep, rcpt, name.
  split; [exact Hlog|].
  vm_compute in Hfid. by injection Hfid as <-.
Defined.

Lemma missing_pdf_step_witness :
  exists e w',
    processBody env_ok "pg" batch_without_steps 0 "i1" w0 = (Threw e, w') /\
    job_log w' = job_log w0 /\ fs w' = fs w0 /\ fs_written w' = fs_written w0 /\
    tick w' <= 2 + tick w0.
Proof. apply (missing_pdf_step env_ok "pg" batch_without_steps 0 "i1" w0). reflexivity. Defined.

Lemma completed_job_has_steps_witness :
  2 * length (invoiceIds (batch ["i1"; "i2"])) <= length (steps (batch ["i1"; "i2"])).
Proof.
  apply (completed_job_has_steps env_ok "pg" (batch ["i1"; "i2"]) w0
           (handle env_ok "pg" (batch ["i1"; "i2"]) w0).2).
  vm_compute. reflexivity.
Defined.

Lemma unsuccessful_send_witness :
  (sendEmail env_send_false "pg" (batch ["i1"]) "i1" (Some emailStep1) inv1 acme
     "file-i1" "info@acme.test" "Acme" w0).1 =
  Threw (JsError "Failed to send invoice email") /\
  fs_written (sendEmail env_send_false "pg" (batch ["i1"]) "i1" (Some emailStep1)
                inv1 acme "file-i1" "info@acme.test" "Acme" w0).2 =
    ["/tmp/invoice_INV-001_1700000000001.pdf"] /\
  fs (sendEmail env_send_false "pg" (batch ["i1"]) "i1" (Some emailStep1)
        inv1 acme "file-i1" "info@acme.test" "Acme" w0).2
    !! "/tmp/invoice_INV-001_1700000000001.pdf" = None.
Proof.
  rewrite (unsuccessful_send env_send_false "pg" (batch ["i1"]) "i1" emailStep1 inv1 acme
             "file-i1" "info@acme.test" "Acme" "%PDF" w0); [|reflexivity..].
  split_and!; vm_compute; reflexivity.
Defined.

Lemma rejected_write_skips_cleanup_witness :
  ((sendEmail env_disk_full "pg" (batch ["i1"]) "i1" (Some emailStep1) inv1 acme
      "file-i1" "info@acme.test" "Acme" w0).1 =
   Threw (JsError "ENOSPC: no space left on device, write") /\
   fs (sendEmail env_disk_full "pg" (batch ["i1"]) "i1" (Some emailStep1) inv1 acme
         "file-i1" "info@acme.test" "Acme" w0).2
     !! "/tmp/invoice_INV-001_1700000000001.pdf" = Some "%P") /\
  ((sendEmail env_flat_tmp "pg" (batch ["i1"]) "i1" (Some emailStep1) inv_slash acme
      "file-i1" "info@acme.test" "Acme" w0).1 =
   Threw (JsError
     "ENOENT: no such file or directory, open '/tmp/invoice_A/B_1700000000001.pdf'") /\
   fs (sendEmail env_flat_tmp "pg" (batch ["i1"]) "i1" (Some emailStep1) inv_slash acme
         "file-i1" "info@acme.test" "Acme" w0).2 = ∅).
Proof.
  rewrite (rejected_write_skips_cleanup env_disk_full "pg" (batch ["i1"]) "i1"
             emailStep1 inv1 acme "file-i1" "info@acme.test" "Acme" "%PDF"
             (JsError "ENOSPC: no space left on device, write") (Some "%P") w0);
    [|reflexivity..].
  rewrite (rejected_write_skips_cleanup env_flat_tmp "pg" (batch ["i1"]) "i1"
             emailStep1 inv_slash acme "file-i1" "info@acme.test" "Acme" "%PDF"
             (JsError
                "ENOENT: no such file or directory, open '/tmp/invoice_A/B_1700000000001.pdf'")
             None w0);
    [|reflexivity..].
  split_and!; vm_compute; reflexivity.
Defined.

Lemma handle_history_shape_witness :
  exists reports ending,
    job_log (handle env_send_false "pg" (batch ["i1"; "i2"]) w0).2 =
      job_log w0 ++ reports ++ ending /\
    Forall progress reports /\
    Forall (fun u => upd_status u = Failed) ending.
Proof.
  destruct (handle_history_shape env_send_false "pg" (batch ["i1"; "i2"]) w0)
    as (reports & ending & Hlog & Hrep & Hend); [done..|].
  exists reports, ending. split_and!; [done..|].
  assert ((handle env_send_false "pg" (batch ["i1"; "i2"]) w0).1 =
          Threw (JsError "Failed to send invoice email")) as Hres
    by (vm_compute; reflexivity).
  rewrite Hres in Hend.
  destruct Hend as [->|[msg ->]]; repeat constructor.
Defined.

Lemma contact_is_authoritative_witness :
  resolveRecipient env_contact_without_email inv1 acme w0 =
    (Threw (JsError "No valid email address found for Acme (Invoice #INV-001)"),
     ticked 1 w0).
Proof.
  apply (contact_is_authoritative env_contact_without_email inv1 acme
           {| contact_email := None; full_name := "Pat Payer" |} w0); reflexivity.
Defined.

Lemma resolveRecipient_without_contact_witness :
  resolveRecipient env_ok inv1 plainCo w0 =
    (Returned ("billing@plain.test", "Plain"), w0).
Proof.
  apply (resolveRecipient_without_contact env_ok inv1 plainCo w0). reflexivity.
Defined.

End HandlerMore.

Module ControlPanelFacts.
Import ControlPanel.

Lemma append_assoc (a b c : string) : (a +:+ b) +:+ c = a +:+ (b +:+ c).
Proof.
  induction a as [|x a IH]; [done|].
  change (String x ((a +:+ b) +:+ c) = String x (a +:+ (b +:+ c))). by rewrite IH.
Qed.

Lemma append_empty_r (a : string) : a +:+ "" = a.
Proof.
  induction a as [|x a IH]; [done|].
  change (String x (a +:+ "") = String x a). by rewrite IH.
Qed.

Lemma showAnswer_rewrites text front m :
  isAssistant m = true ->
  showAnswer text (front ++ [m]) = front ++ [ {| role := assistant; content := text |} ].
Proof.
  intros Hm. unfold showAnswer. rewrite length_app. simpl.
  replace (Z.to_nat (Z.of_nat (length front + 1) - 1)) with (length front) by lia.
  rewrite list_lookup_middle by done. rewrite Hm.
  replace (0 <=? Z.of_nat (length front + 1) - 1)%Z with true
    by (symmetry; apply Z.leb_le; lia).
  simpl. rewrite <- (Nat.add_0_r (length front)) at 1. rewrite insert_app_r. simpl.
  unfold isAssistant in Hm. by destruct (role m).
Qed.

Lemma showAnswer_appends text messages :
  match last messages with
  | Some m => isAssistant m = false
  | None => True
  end ->
  showAnswer text messages = messages ++ [ {| role := assistant; content := text |} ].
Proof.
  destruct messages as [|m0 rest _] using rev_ind; [done|].
  rewrite last_snoc. intros Hm. unfold showAnswer. rewrite length_app. simpl.
  replace (Z.to_nat (Z.of_nat (length rest + 1) - 1)) with (length rest) by lia.
  rewrite list_lookup_middle by done. rewrite Hm. by rewrite andb_false_r.
Qed.

Lemma receive_running tokens text front x :
  foldl onToken (text, front ++ [ {| role := assistant; content := x |} ]) tokens =
  (text +:+ textOf tokens,
   front ++ [ {| role := assistant;
                 content := match tokens with
                            | [] => x
                            | _ => text +:+ textOf tokens
                            end |} ]).
Proof.
  revert text x. induction tokens as [|t tokens IH]; intros text x.
  - simpl. by rewrite append_empty_r.
  - change (foldl onToken (text, front ++ [ {| role := assistant; content := x |} ])
              (t :: tokens))
      with (foldl onToken
              (text +:+ t,
               showAnswer (text +:+ t) (front ++ [ {| role := assistant; content := x |} ]))
              tokens).
    rewrite showAnswer_rewrites by done. rewrite IH.
    change (textOf (t :: tokens)) with (t +:+ textOf tokens).
    rewrite <- append_assoc. do 3 f_equal.
    destruct tokens; [|done]. simpl. by rewrite append_empty_r.
Qed.

(** While the answer streams in, the chat shows the messages that were there
    plus one assistant message holding all the text received so far; an
    assistant message that was already last is overwritten instead. *)
Theorem token_stream messages tokens :
  tokens <> [] ->
  (match last messages with
   | Some m => isAssistant m = false
   | None => True
   end ->
   receive messages tokens =
   (textOf tokens, messages ++ [ {| role := assistant; content := textOf tokens |} ])) /\
  (forall front m,
     messages = front ++ [m] -> isAssistant m = true ->
     receive messages tokens =
     (textOf tokens, front ++ [ {| role := assistant; content := textOf tokens |} ])).
Proof.
  intros Hne. destruct tokens as [|t tokens]; [done|]. unfold receive. split.
  - intros Hlast.
    change (foldl onToken ("", messages) (t :: tokens))
      with (foldl onToken (t, showAnswer t messages) tokens).
    rewrite showAnswer_appends by done. rewrite receive_running.
    change (textOf (t :: tokens)) with (t +:+ textOf tokens).
    do 4 f_equal. destruct tokens; [|done]. simpl. by rewrite append_empty_r.
  - intros front m -> Hm.
    change (foldl onToken ("", front ++ [m]) (t :: tokens))
      with (foldl onToken (t, showAnswer t (front ++ [m])) tokens).
    rewrite showAnswer_rewrites by done. rewrite receive_running.
    change (textOf (t :: tokens)) with (t +:+ textOf tokens).
    do 4 f_equal. destruct tokens; [|done]. simpl. by rewrite append_empty_r.
Qed.

Lemma token_stream_witness :
  receive [ {| role := system; content := "sys" |}; {| role := user; content := "hi" |} ]
          ["Hel"; "lo"; "!"] =
  ("Hello!",
   [ {| role := system; content := "sys" |}; {| role := user; content := "hi" |};
     {| role := assistant; content := "Hello!" |} ]) /\
  receive [ {| role := user; content := "hi" |}; {| role := assistant; content := "old" |} ]
          ["new"] =
  ("new", [ {| role := user; content := "hi" |}; {| role := assistant; content := "new" |} ]).
Proof.
  split.
  - destruct (token_stream
                [ {| role := system; content := "sys" |}; {| role := user; content := "hi" |} ]
                ["Hel"; "lo"; "!"]) as [Hnew _]; [done|].
    by apply Hnew.
  - destruct (token_stream
                [ {| role := user; content := "hi" |}; {| role := assistant; content := "old" |} ]
                ["new"]) as [_ Hold]; [done|].
    apply (Hold [ {| role := user; content := "hi" |} ]
                {| role := assistant; content := "old" |}); reflexivity.
Defined.

End ControlPanelFacts.

Module TreeSelectFacts.
Import TreeSelect TreeSelectExamples.

Lemma find_app_first {A} (p : A -> bool) (l1 l2 : list A) :
  List.find p (l1 ++ l2) =
  match List.find p l1 with
  | Some x => Some x
  | None => List.find p l2
  end.
Proof. induction l1 as [|x l1 IH]; simpl; [done|]. by destruct (p x). Qed.

(** The loop of [findSelectedOptionWithPath], one option at a time, as the
    source writes it. *)
Lemma findSelectedOptionWithPath_cons opt rest targetValue parentPath :
  findSelectedOptionWithPath (opt :: rest) targetValue parentPath =
  let currentPath := parentPath ++ [opt] in
  if String.eqb (value opt) targetValue then Some (opt, currentPath)
  else match match children opt with
             | Some c => findSelectedOptionWithPath c targetValue currentPath
             | None => None
             end with
       | Some found => Some found
       | None => findSelectedOptionWithPath rest targetValue parentPath
       end.
Proof.
  unfold findSelectedOptionWithPath. destruct opt as [l v t ch e s]. simpl.
  destruct (String.eqb v targetValue); [done|]. by destruct ch.
Qed.

Lemma visit_first targetValue o :
  forall parentPath,
    fst <$> visit targetValue parentPath o =
    List.find (fun x => String.eqb (value x) targetValue) (nodesOf o).
Proof.
  induction o as [l v t ch e s IH] using option_tree_ind. intros parentPath.
  simpl. destruct (String.eqb v targetValue); [done|].
  destruct ch as [c|]; [|done].
  generalize (parentPath ++ [mkOption l v t (Some c) e s]). intros path.
  induction IH as [|x c Hx _ IHc]; [done|].
  simpl. rewrite find_app_first, <- (Hx path).
  destruct (visit targetValue path x) as [[o' p']|]; simpl; [done|]. apply IHc.
Qed.

Lemma findSelectedOptionWithPath_first opts targetValue parentPath :
  fst <$> findSelectedOptionWithPath opts targetValue parentPath =
  List.find (fun x => String.eqb (value x) targetValue) (nodes opts).
Proof.
  unfold findSelectedOptionWithPath, nodes.
  induction opts as [|o opts IH]; [done|].
  simpl. rewrite find_app_first, <- (visit_first targetValue o parentPath).
  destruct (visit targetValue parentPath o) as [[o' p']|]; simpl; [done|]. apply IH.
Qed.

Lemma find_nothing opts targetValue parentPath :
  (forall o, In o (nodes opts) -> value o <> targetValue) ->
  findSelectedOptionWithPath opts targetValue parentPath = None.
Proof.
  intros Hall.
  pose proof (findSelectedOptionWithPath_first opts targetValue parentPath) as H.
  destruct (findSelectedOptionWithPath opts targetValue parentPath) as [[o p]|]; [|done].
  simpl in H. symmetry in H. apply List.find_some in H as [Hin Hv].
  apply String.eqb_eq in Hv. by destruct (Hall o Hin).
Qed.

(** [findSelectedOptionWithPath] returns the first option, in depth-first
    order with parents before children, whose value is the target; it
    returns nothing exactly when no option at any depth has that value. *)
Theorem find_first_in_order opts targetValue parentPath :
  fst <$> findSelectedOptionWithPath opts targetValue parentPath =
    List.find (fun x => String.eqb (value x) targetValue) (nodes opts) /\
  (findSelectedOptionWithPath opts targetValue parentPath = None <->
   forall o, In o (nodes opts) -> value o <> targetValue).
Proof.
  split; [apply findSelectedOptionWithPath_first|].
  pose proof (findSelectedOptionWithPath_first opts targetValue parentPath) as H.
  split.
  - intros Hnone. rewrite Hnone in H. simpl in H. symmetry in H.
    intros o Hin Hv. pose proof (List.find_none _ _ H o Hin) as Hf. simpl in Hf.
    apply String.eqb_neq in Hf. done.
  - apply find_nothing.
Qed.

Lemma firstFound_Some {A B} (f : A -> option B) l y :
  firstFound f l = Some y -> exists x, In x l /\ f x = Some y.
Proof.
  induction l as [|x l IH]; simpl; [done|].
  destruct (f x) eqn:Hx.
  - intros [= <-]. exists x. by split; [left|].
  - intros (x' & Hin & Hx')%IH. exists x'. by split; [right|].
Qed.

Lemma visit_path targetValue o :
  forall parentPath found path,
    visit targetValue parentPath o = Some (found, path) ->
    value found = targetValue /\
    exists chain,
      path = parentPath ++ o :: chain /\
      last (o :: chain) = Some found /\
      (chain = [] \/ exists c, children o = Some c /\ descends c chain).
Proof.
  induction o as [l v t ch e s IH] using option_tree_ind.
  intros parentPath found path. simpl.
  destruct (String.eqb v targetValue) eqn:Hv.
  - intros [= <- <-]. apply String.eqb_eq in Hv. split; [done|].
    exists []. split_and!; [done|done|by left].
  - destruct ch as [c|]; [|done].
    intros (x & Hin & Hx)%firstFound_Some.
    rewrite List.Forall_forall in IH.
    destruct (IH x Hin _ _ _ Hx) as (Hval & chain & -> & Hlast & Hchain).
    split; [done|]. exists (x :: chain). split_and!.
    + by rewrite <- app_assoc.
    + done.
    + right. exists c. split; [done|].
      destruct Hchain as [->|(c' & Hc' & Hd)]; [by constructor|].
      by eapply descends_child.
Qed.

(** The path returned with the option found starts with the path given,
    continues with one of the options searched and goes down from parent to
    child until it ends with the option found, whose value is the target. *)
Theorem found_path_descends opts targetValue parentPath found path :
  findSelectedOptionWithPath opts targetValue parentPath = Some (found, path) ->
  value found = targetValue /\
  exists chain,
    path = parentPath ++ chain /\
    descends opts chain /\
    last chain = Some found.
Proof.
  unfold findSelectedOptionWithPath.
  intros (o & Hin & Ho)%firstFound_Some.
  destruct (visit_path _ _ _ _ _ Ho) as (Hval & chain & -> & Hlast & Hchain).
  split; [done|]. exists (o :: chain). split_and!; [done| |done].
  destruct Hchain as [->|(c & Hc & Hd)]; [by constructor|].
  by eapply descends_child.
Qed.

Lemma resetOption_nodes o :
  Forall (fun x => selected x = Some false /\ excluded x = Some false)
         (nodesOf (resetOption o)) /\
  (fun x => (label x, value x, type x)) <$> nodesOf (resetOption o) =
  (fun x => (label x, value x, type x)) <$> nodesOf o /\
  resetOption (resetOption o) = resetOption o.
Proof.
  induction o as [l v t ch e s IH] using option_tree_ind.
  destruct ch as [c|]; simpl; [|by repeat constructor].
  assert (Forall (fun x => selected x = Some false /\ excluded x = Some false)
            (flat_map nodesOf (map resetOption c)) /\
          (fun x => (label x, value x, type x)) <$> flat_map nodesOf (map resetOption c) =
          (fun x => (label x, value x, type x)) <$> flat_map nodesOf c /\
          map resetOption (map resetOption c) = map resetOption c) as (H1 & H2 & H3).
  { induction IH as [|x c (Hx1 & Hx2 & Hx3) _ (IH1 & IH2 & IH3)]; [done|]. simpl.
    split_and!.
    - by apply Forall_app.
    - by rewrite !fmap_app, Hx2, IH2.
    - by rewrite Hx3, IH3. }
  split_and!.
  - by constructor.
  - simpl. f_equal. apply H2.
  - by rewrite H3.
Qed.

(** After [resetOptions] every option, at every depth, is neither selected
    nor excluded, while the labels, values and types of the tree are what
    they were, in the same order; resetting again changes nothing, and the
    reset button condition [hasSelections] is false. *)
Theorem resetOptions_clears opts :
  Forall (fun x => selected x = Some false /\ excluded x = Some false)
         (nodes (resetOptions opts)) /\
  (fun x => (label x, value x, type x)) <$> nodes (resetOptions opts) =
  (fun x => (label x, value x, type x)) <$> nodes opts /\
  resetOptions (resetOptions opts) = resetOptions opts /\
  hasSelections (resetOptions opts) = false.
Proof.
  unfold nodes, resetOptions.
  induction opts as [|o opts (IH1 & IH2 & IH3 & IH4)]; [done|]. simpl.
  destruct (resetOption_nodes o) as (H1 & H2 & H3).
  split_and!.
  - by apply Forall_app.
  - by rewrite !fmap_app, H2, IH2.
  - by rewrite H3, IH3.
  - unfold hasSelections in *. simpl. rewrite IH4. by destruct o.
Qed.

(** [toggleExpand] flips the membership of the option clicked and of no
    other, so that toggling twice restores the set of expanded options. *)
Theorem toggleExpand_flips optionValue (prev : gset string) :
  (optionValue ∈ toggleExpand optionValue prev <-> optionValue ∉ prev) /\
  (forall x, x <> optionValue -> x ∈ toggleExpand optionValue prev <-> x ∈ prev) /\
  toggleExpand optionValue (toggleExpand optionValue prev) = prev.
Proof.
  unfold toggleExpand. split_and!.
  - case_decide; set_solver.
  - intros x Hx. case_decide; set_solver.
  - repeat case_decide; try set_solver.
    apply set_eq. intros x. destruct (decide (x = optionValue)); set_solver.
Qed.

Lemma pathObjOf_snoc path opt :
  pathObjOf (path ++ [opt]) = assignProperty (pathObjOf path) (type opt) (value opt).
Proof. unfold pathObjOf. by rewrite foldl_snoc. Qed.

(** The path object holds, for a type other than [__proto__], the value of
    the last option of that type on the path, so that an option deeper on
    the path replaces an ancestor of the same type; a type that no option
    of the path has is absent, and so is [__proto__] whatever the path. *)
Theorem pathObjOf_last_of_type path ty :
  pathObjOf path !! ty =
  if String.eqb ty "__proto__" then None
  else value <$> last (List.filter (fun opt => String.eqb (type opt) ty) path).
Proof.
  induction path as [|opt path IH] using rev_ind.
  { by destruct (String.eqb ty "__proto__"). }
  rewrite pathObjOf_snoc, List.filter_app. simpl. unfold assignProperty.
  destruct (String.eqb (type opt) ty) eqn:Hty.
  - apply String.eqb_eq in Hty as <-.
    destruct (String.eqb (type opt) "__proto__"); [done|].
    by rewrite lookup_insert_eq, last_snoc.
  - apply String.eqb_neq in Hty. rewrite app_nil_r.
    destruct (String.eqb (type opt) "__proto__"); [done|].
    by rewrite lookup_insert_ne.
Qed.

Lemma expanded_path (prev : gset string) path x :
  x ∈ foldl (fun next p => next ∪ {[value p]}) prev path <->
  x ∈ prev \/ x ∈ value <$> path.
Proof.
  revert prev. induction path as [|p path IH]; intros prev; simpl.
  - set_solver.
  - rewrite IH. set_solver.
Qed.

(** The effect that follows [value]: an empty value changes nothing; a value
    that no option has only replaces the selected value, leaving the label
    shown and the expanded options as they were; a value that an option has
    also expands that option and all its ancestors, closes nothing, and
    shows the labels of the path. *)
Theorem syncValue_cases options value0 st :
  (truthy_string value0 = false -> syncValue options value0 st = st) /\
  (truthy_string value0 = true ->
   (forall o, In o (nodes options) -> value o <> value0) ->
   syncValue options value0 st =
   {| selectedValue := value0;
      expandedItems := expandedItems st;
      displayLabel := displayLabel st |}) /\
  (truthy_string value0 = true ->
   forall found path,
     findSelectedOptionWithPath options value0 [] = Some (found, path) ->
     selectedValue (syncValue options value0 st) = value0 /\
     displayLabel (syncValue options value0 st) = displayLabelOf path /\
     expandedItems st ⊆ expandedItems (syncValue options value0 st) /\
     value0 ∈ expandedItems (syncValue options value0 st) /\
     forall p, In p path -> value p ∈ expandedItems (syncValue options value0 st)).
Proof.
  unfold syncValue. split_and!.
  - by intros ->.
  - intros -> Hnone. by rewrite (find_nothing _ _ _ Hnone).
  - intros -> found path Hfound. rewrite Hfound.
    pose proof Hfound as (o & Hin & Ho)%firstFound_Some.
    destruct (visit_path _ _ _ _ _ Ho) as (Hval & chain & Hpath & Hlast & _).
    change ([] ++ o :: chain) with (o :: chain) in Hpath.
    cbn [selectedValue displayLabel expandedItems].
    split_and!; try done.
    + intros x Hx. apply expanded_path. by left.
    + apply expanded_path. right.
      apply list_elem_of_fmap. exists found. split; [done|].
      rewrite Hpath. apply last_Some in Hlast as [front Hfront].
      rewrite Hfront. set_solver.
    + intros p Hp. apply expanded_path. right.
      apply list_elem_of_fmap. exists p. split; [done|]. by apply list_elem_of_In.
Qed.

Lemma find_first_in_order_witness :
  findSelectedOptionWithPath sampleOptions "gone" [board2] = None.
Proof.
  apply (find_first_in_order sampleOptions "gone" [board2]). intros o Hin.
  repeat (destruct Hin as [<-|Hin]; [discriminate|]). destruct Hin.
Defined.

Lemma toggleExpand_flips_witness :
  "c1" ∈ toggleExpand "b1" {["b1"; "c1"]}.
Proof.
  destruct (toggleExpand_flips "b1" {["b1"; "c1"]}) as (_ & Hother & _).
  apply Hother; [discriminate|set_solver].
Defined.

Lemma found_path_descends_witness :
  value sub1 = "s1" /\
  exists chain,
    [board1; cat1; sub1] = [] ++ chain /\
    descends sampleOptions chain /\
    last chain = Some sub1.
Proof.
  apply (found_path_descends sampleOptions "s1" [] sub1 [board1; cat1; sub1]).
  reflexivity.
Defined.

Lemma syncValue_cases_witness :
  syncValue sampleOptions "" closedState = closedState /\
  syncValue sampleOptions "gone" closedState =
    {| selectedValue := "gone"; expandedItems := ∅; displayLabel := "Sales" |} /\
  displayLabel (syncValue sampleOptions "s1" closedState) =
    "Support > Hardware > Printers" /\
  "c1" ∈ expandedItems (syncValue sampleOptions "s1" closedState).
Proof.
  destruct (syncValue_cases sampleOptions "" closedState) as (Hempty & _ & _).
  destruct (syncValue_cases sampleOptions "gone" closedState) as (_ & Hgone & _).
  destruct (syncValue_cases sampleOptions "s1" closedState) as (_ & _ & Hfound).
  split_and!.
  - by apply Hempty.
  - apply Hgone; [done|]. intros o Hin.
    repeat (destruct Hin as [<-|Hin]; [discriminate|]). destruct Hin.
  - by destruct (Hfound eq_refl sub1 [board1; cat1; sub1] eq_refl) as (_ & -> & _).
  - destruct (Hfound eq_refl sub1 [board1; cat1; sub1] eq_refl) as (_ & _ & _ & _ & Hpath).
    apply (Hpath cat1). right. by left.
Defined.

End TreeSelectFacts.

Module InvoicesFacts.
Import Invoices.

Lemma size_list_to_set_le (l : list string) :
  size (list_to_set l : gset string) <= length l.
Proof.
  induction l as [|x l IH]; [vm_compute; lia|].
  rewrite list_to_set_cons, size_union_alt, size_singleton. simpl.
  assert (size (list_to_set l ∖ {[x]} : gset string) <= size (list_to_set l : gset string))
    by (apply subseteq_size; set_solver).
  lia.
Qed.

Lemma size_list_to_set_NoDup (l : list string) :
  size (list_to_set l : gset string) = length l <-> NoDup l.
Proof.
  split; [|apply size_list_to_set].
  induction l as [|x l IH]; [constructor|].
  intros Hsize. pose proof (size_list_to_set_le l) as Hle.
  rewrite list_to_set_cons, size_union_alt, size_singleton in Hsize. simpl in Hsize.
  destruct (decide (x ∈ l)) as [Hin|Hout].
  - exfalso.
    assert (size (list_to_set l ∖ {[x]} : gset string) < size (list_to_set l : gset string)).
    { apply subset_size. set_solver. }
    lia.
  - constructor; [done|]. apply IH.
    assert (list_to_set l ∖ {[x]} = (list_to_set l : gset string)) as Heq by set_solver.
    rewrite Heq in Hsize. lia.
Qed.

(** After "select all" the check box of the table header is checked exactly
    when the table is not empty and no two rows share an invoice id: the
    header compares the number of selected ids with the number of rows. *)
Theorem select_all_header invoices :
  headerChecked invoices (handleSelectAll invoices true) = true <->
  invoices <> [] /\ NoDup (invoice_id <$> invoices).
Proof.
  unfold headerChecked, handleSelectAll.
  rewrite andb_true_iff, Nat.ltb_lt, Nat.eqb_eq.
  rewrite <- (length_fmap invoice_id invoices).
  split.
  - intros [Hpos Hsize]. split; [|by apply size_list_to_set_NoDup].
    intros ->. vm_compute in Hpos. lia.
  - intros [Hne Hnd]. apply size_list_to_set_NoDup in Hnd as Hsize.
    split; [|done]. rewrite Hsize. destruct invoices; [done|]. simpl. lia.
Qed.

(** Ticking or unticking the check box of a row changes whether that
    invoice is selected and nothing else; "unselect all" selects nothing. *)
Theorem select_invoice_only selectedInvoices invoiceId checked x :
  (x ∈ handleSelectInvoice selectedInvoices invoiceId checked <->
   if decide (x = invoiceId) then checked = true else x ∈ selectedInvoices) /\
  (forall invoices, x ∉ handleSelectAll invoices false).
Proof.
  unfold handleSelectInvoice, handleSelectAll. split.
  - destruct checked; case_decide; set_solver.
  - intros invoices. set_solver.
Qed.

Lemma get_cons k v key sp :
  get key ((k, v) :: sp) = if String.eqb k key then Some v else get key sp.
Proof. unfold get. simpl. by destruct (String.eqb k key). Qed.

Lemma get_delete name key sp :
  get key (delete name sp) = if String.eqb key name then None else get key sp.
Proof.
  induction sp as [|[k v] sp IH].
  - by destruct (String.eqb key name).
  - change (delete name ((k, v) :: sp))
      with (if negb (String.eqb k name) then (k, v) :: delete name sp
            else delete name sp).
    rewrite get_cons.
    destruct (String.eqb_spec k name) as [->|Hk]; simpl.
    + rewrite IH. destruct (String.eqb_spec key name) as [->|Hkey]; [done|].
      by rewrite (proj2 (String.eqb_neq name key)).
    + rewrite get_cons, IH.
      destruct (String.eqb_spec k key) as [->|Hkk]; [|done].
      by rewrite (proj2 (String.eqb_neq key name)).
Qed.

Lemma get_set name val key sp :
  get key (set name val sp) = if String.eqb key name then Some val else get key sp.
Proof.
  induction sp as [|[k v] sp IH].
  - simpl. rewrite get_cons, String.eqb_sym. by destruct (String.eqb key name).
  - change (set name val ((k, v) :: sp))
      with (if String.eqb k name then (name, val) :: delete name sp
            else (k, v) :: set name val sp).
    destruct (String.eqb_spec k name) as [->|Hk].
    + rewrite !get_cons, get_delete, (String.eqb_sym name key).
      by destruct (String.eqb key name).
    + rewrite !get_cons, IH.
      destruct (String.eqb_spec k key) as [->|Hkk]; [|done].
      by rewrite (proj2 (String.eqb_neq key name)).
Qed.

Lemma get_row_click templates sp invoice :
  get "invoiceId" (afterClick templates sp (RowClick invoice)) = Some (invoice_id invoice) /\
  get "templateId" (afterClick templates sp (RowClick invoice)) =
    template_id <$> head templates /\
  get "managingInvoiceId" (afterClick templates sp (RowClick invoice)) = None.
Proof.
  unfold afterClick, handleInvoiceSelect, updateUrlParams.
  destruct templates as [|t ts]; simpl; rewrite ?get_delete, ?get_set; done.
Qed.

Lemma get_manage_items templates sp invoice :
  get "managingInvoiceId" (afterClick templates sp (ManageItems invoice)) =
    Some (invoice_id invoice) /\
  get "invoiceId" (afterClick templates sp (ManageItems invoice)) = None /\
  get "templateId" (afterClick templates sp (ManageItems invoice)) = None.
Proof.
  unfold afterClick, handleManageItemsClick, updateUrlParams.
  simpl. rewrite ?get_delete, ?get_set. done.
Qed.

(** What each click writes to the URL: a row click selects the invoice with
    the first template (none when there is no template) and leaves the
    manage view; "manage items" opens the manage view and drops the selected
    invoice and template; and no click touches a parameter other than
    [invoiceId], [templateId] and [managingInvoiceId]. *)
Theorem click_effects templates sp :
  (forall invoice,
     get "invoiceId" (afterClick templates sp (RowClick invoice)) = Some (invoice_id invoice) /\
     get "templateId" (afterClick templates sp (RowClick invoice)) =
       template_id <$> head templates /\
     get "managingInvoiceId" (afterClick templates sp (RowClick invoice)) = None) /\
  (forall invoice,
     get "managingInvoiceId" (afterClick templates sp (ManageItems invoice)) =
       Some (invoice_id invoice) /\
     get "invoiceId" (afterClick templates sp (ManageItems invoice)) = None /\
     get "templateId" (afterClick templates sp (ManageItems invoice)) = None) /\
  (forall c key,
     key <> "invoiceId" -> key <> "templateId" -> key <> "managingInvoiceId" ->
     get key (afterClick templates sp c) = get key sp).
Proof.
  split_and!.
  - apply get_row_click.
  - apply get_manage_items.
  - intros c key H1 H2 H3.
    apply String.eqb_neq in H1, H2, H3.
    destruct c as [invoice|tid|invoice|]; simpl;
      unfold handleInvoiceSelect, handleTemplateSelect, handleManageItemsClick,
        onGenerateSuccess, updateUrlParams;
      try destruct templates as [|t ts]; simpl;
      rewrite ?get_delete, ?get_set, ?H1, ?H2, ?H3; done.
Qed.

(** Whatever the user clicks, the URL never names both a selected invoice
    and an invoice to manage, provided it did not to begin with: the list
    with preview and the manage view exclude each other. *)
Theorem views_exclusive templates sp clicks :
  ~ (is_Some (get "invoiceId" sp) /\ is_Some (get "managingInvoiceId" sp)) ->
  ~ (is_Some (get "invoiceId" (foldl (afterClick templates) sp clicks)) /\
     is_Some (get "managingInvoiceId" (foldl (afterClick templates) sp clicks))).
Proof.
  revert sp. induction clicks as [|c clicks IH]; intros sp Hinv; [done|].
  simpl. apply IH. clear IH.
  destruct c as [invoice|tid|invoice|].
  - destruct (get_row_click templates sp invoice) as (_ & _ & ->).
    intros [_ [? ?]]. done.
  - simpl. unfold handleTemplateSelect, updateUrlParams. simpl.
    by rewrite !get_set.
  - destruct (get_manage_items templates sp invoice) as (_ & -> & _).
    intros [[? ?] _]. done.
  - simpl. unfold onGenerateSuccess, updateUrlParams. simpl.
    rewrite !get_delete. simpl. intros [_ [? ?]]. done.
Qed.

Lemma select_all_header_witness :
  headerChecked [ {| invoice_id := "a"; invoice_number := "1"; is_manual := false |};
                  {| invoice_id := "b"; invoice_number := "2"; is_manual := true |} ]
    (handleSelectAll
       [ {| invoice_id := "a"; invoice_number := "1"; is_manual := false |};
         {| invoice_id := "b"; invoice_number := "2"; is_manual := true |} ] true) = true.
Proof.
  apply (select_all_header
           [ {| invoice_id := "a"; invoice_number := "1"; is_manual := false |};
             {| invoice_id := "b"; invoice_number := "2"; is_manual := true |} ]).
  split; [done|]. simpl. apply NoDup_cons. split; [set_solver|].
  apply NoDup_cons. split; [set_solver|]. apply NoDup_nil_2.
Defined.

Lemma click_effects_witness :
  get "tab" (afterClick [] [("tab", "invoices"); ("invoiceId", "a")]
               (ManageItems {| invoice_id := "b"; invoice_number := "2"; is_manual := true |}))
  = Some "invoices".
Proof.
  destruct (click_effects [] [("tab", "invoices"); ("invoiceId", "a")]) as (_ & _ & Hkeep).
  rewrite Hkeep; done.
Defined.

Lemma views_exclusive_witness :
  ~ (is_Some (get "invoiceId"
       (foldl (afterClick []) [("invoiceId", "a")]
          [ManageItems {| invoice_id := "b"; invoice_number := "2"; is_manual := true |};
           TemplateChoice "t1"])) /\
     is_Some (get "managingInvoiceId"
       (foldl (afterClick []) [("invoiceId", "a")]
          [ManageItems {| invoice_id := "b"; invoice_number := "2"; is_manual := true |};
           TemplateChoice "t1"]))).
Proof.
  apply (views_exclusive [] [("invoiceId", "a")]).
  intros [_ [v Hv]]. discriminate Hv.
Defined.

End InvoicesFacts.

Module ScheduleCalendarFacts.
Import ScheduleCalendar.

(** [updateEventLocally] keeps the number of events and the entry id at
    every position, and leaves the list as it is when no event has the id
    of the updated one. *)
Theorem updateEventLocally_keeps_ids events updatedEvent :
  length (updateEventLocally events updatedEvent) = length events /\
  entry_id <$> updateEventLocally events updatedEvent = entry_id <$> events /\
  ((forall e, e ∈ events -> entry_id e <> entry_id updatedEvent) ->
   updateEventLocally events updatedEvent = events).
Proof.
  unfold updateEventLocally.
  destruct (list_find _ events) as [[i e]|] eqn:Hfind.
  - apply list_find_Some in Hfind as (Hi & He & _). split_and!.
    + by rewrite length_insert.
    + rewrite list_fmap_insert, <- He. apply list_insert_id.
      by rewrite list_lookup_fmap, Hi.
    + intros Hnone. destruct (Hnone e); [|done]. by eapply list_elem_of_lookup_2.
  - done.
Qed.

(** Dropping or resizing an event that is in the list replaces the first
    event with its entry id by the event with the new times, the same
    assigned users and the same [original_entry_id], whether or not the
    entry id contains an underscore; every other position is untouched. *)
Theorem dropped_event_replaced events event start end_ i :
  events !! i = Some event ->
  (forall j e, j < i -> events !! j = Some e -> entry_id e <> entry_id event) ->
  updateEventLocally events (rescheduled event start end_) =
    <[i := rescheduled event start end_]> events /\
  scheduled_start (rescheduled event start end_) = start /\
  scheduled_end (rescheduled event start end_) = end_ /\
  assigned_user_ids (rescheduled event start end_) = assigned_user_ids event /\
  original_entry_id (rescheduled event start end_) = original_entry_id event.
Proof.
  intros Hi Hfirst. split_and!; try done.
  - unfold updateEventLocally.
    assert (list_find (fun e => entry_id e = entry_id (rescheduled event start end_))
              events = Some (i, event)) as ->; [|done].
    apply list_find_Some. split_and!; [done|done|].
    intros j e Hj Hlt. simpl. by eapply Hfirst.
  - simpl. by destruct (includes (entry_id event) "_").
Qed.

Lemma updateEventLocally_keeps_ids_witness :
  updateEventLocally [ mkEntry "e1" "Visit" 10 20 ["u1"] None None ]
    (mkEntry "e9" "Other" 1 2 [] None None) =
  [ mkEntry "e1" "Visit" 10 20 ["u1"] None None ].
Proof.
  destruct (updateEventLocally_keeps_ids [ mkEntry "e1" "Visit" 10 20 ["u1"] None None ]
              (mkEntry "e9" "Other" 1 2 [] None None)) as (_ & _ & Hsame).
  apply Hsame. intros e ->%list_elem_of_singleton. discriminate.
Defined.

Lemma dropped_event_replaced_witness :
  updateEventLocally
    [ mkEntry "e1" "Visit" 10 20 ["u1"] None None;
      mkEntry "e2_163" "Call" 30 40 ["u2"] (Some "e2") (Some "weekly") ]
    (rescheduled (mkEntry "e2_163" "Call" 30 40 ["u2"] (Some "e2") (Some "weekly")) 50 60) =
  [ mkEntry "e1" "Visit" 10 20 ["u1"] None None;
    mkEntry "e2_163" "Call" 50 60 ["u2"] (Some "e2") (Some "weekly") ].
Proof.
  destruct (dropped_event_replaced
              [ mkEntry "e1" "Visit" 10 20 ["u1"] None None;
                mkEntry "e2_163" "Call" 30 40 ["u2"] (Some "e2") (Some "weekly") ]
              (mkEntry "e2_163" "Call" 30 40 ["u2"] (Some "e2") (Some "weekly"))
              50 60 1) as [Hrun _].
  - reflexivity.
  - intros [|j] e Hj He; [|lia]. injection He as <-. discriminate.
  - rewrite Hrun. reflexivity.
Defined.

End ScheduleCalendarFacts.
